(** * s3indexbuilder: directory listings for an S3 bucket

    A shallow embedding of [s3indexbuilder.py] and the properties of its
    tree reconstruction, listing generation and reconciliation.

    Python [str] values are modelled as [string] (a sequence of bytes, the
    UTF-8 encoding of the text): comparison of UTF-8 byte sequences agrees
    with Python's comparison by code point, and [str.encode()] is the
    identity.  A [dict] is an association list in insertion order, because
    the program iterates over its dictionaries. *)

From Stdlib Require Import String Ascii List Bool Arith NArith Lia.
From Stdlib Require Import Permutation Sorted.
From Stdlib Require Import Decimal DecimalString.
Import ListNotations.

Local Open Scope string_scope.
Local Open Scope list_scope.

(** ** Characters and string helpers *)

Definition dquote_char : ascii := ascii_of_nat 34.
Definition newline_char : ascii := ascii_of_nat 10.
Definition slash_char : ascii := ascii_of_nat 47.

Definition q : string := String dquote_char EmptyString.
Definition nl : string := String newline_char EmptyString.

Definition is_empty (s : string) : bool :=
  match s with
  | EmptyString => true
  | String _ _ => false
  end.

(** [s.rstrip(ch)], [s.lstrip(ch)] and [s.strip(ch)] for a single
    character [ch]. *)
Fixpoint rstrip (ch : ascii) (s : string) : string :=
  match s with
  | EmptyString => EmptyString
  | String c r =>
      match rstrip ch r with
      | EmptyString => if Ascii.eqb c ch then EmptyString else String c EmptyString
      | r' => String c r'
      end
  end.

Fixpoint lstrip (ch : ascii) (s : string) : string :=
  match s with
  | EmptyString => EmptyString
  | String c r => if Ascii.eqb c ch then lstrip ch r else s
  end.

Definition strip (ch : ascii) (s : string) : string := rstrip ch (lstrip ch s).

(** [needle in hay] on strings. *)
Fixpoint contains (needle hay : string) : bool :=
  String.prefix needle hay
  || match hay with
     | EmptyString => false
     | String _ r => contains needle r
     end.

(** [str(n)] for a non-negative integer. *)
Definition str_of_nat (n : nat) : string := NilEmpty.string_of_uint (Nat.to_uint n).

(** Two-digit, zero-padded decimal, as [%d], [%H] and [%M] print it. *)
Definition two_digits (n : nat) : string :=
  if Nat.ltb n 10 then "0" ++ str_of_nat n else str_of_nat n.

(** ** hashlib and base64

    [hashlib.md5] (RFC 1321) on a sequence of bytes, and the two
    renderings of the digest the program uses. *)

Module MD5.

Local Open Scope N_scope.

Definition mask32 : N := 0xffffffff.
Definition add32 (x y : N) : N := N.land (x + y) mask32.
Definition not32 (x : N) : N := N.lxor x mask32.
Definition rotl32 (x n : N) : N :=
  N.land (N.lor (N.shiftl x n) (N.shiftr x (32 - n))) mask32.

Definition shifts : list N :=
  [7; 12; 17; 22; 7; 12; 17; 22; 7; 12; 17; 22; 7; 12; 17; 22;
   5; 9; 14; 20; 5; 9; 14; 20; 5; 9; 14; 20; 5; 9; 14; 20;
   4; 11; 16; 23; 4; 11; 16; 23; 4; 11; 16; 23; 4; 11; 16; 23;
   6; 10; 15; 21; 6; 10; 15; 21; 6; 10; 15; 21; 6; 10; 15; 21].

Definition sines : list N :=
  [0xd76aa478; 0xe8c7b756; 0x242070db; 0xc1bdceee;
   0xf57c0faf; 0x4787c62a; 0xa8304613; 0xfd469501;
   0x698098d8; 0x8b44f7af; 0xffff5bb1; 0x895cd7be;
   0x6b901122; 0xfd987193; 0xa679438e; 0x49b40821;
   0xf61e2562; 0xc040b340; 0x265e5a51; 0xe9b6c7aa;
   0xd62f105d; 0x02441453; 0xd8a1e681; 0xe7d3fbc8;
   0x21e1cde6; 0xc33707d6; 0xf4d50d87; 0x455a14ed;
   0xa9e3e905; 0xfcefa3f8; 0x676f02d9; 0x8d2a4c8a;
   0xfffa3942; 0x8771f681; 0x6d9d6122; 0xfde5380c;
   0xa4beea44; 0x4bdecfa9; 0xf6bb4b60; 0xbebfbc70;
   0x289b7ec6; 0xeaa127fa; 0xd4ef3085; 0x04881d05;
   0xd9d4d039; 0xe6db99e5; 0x1fa27cf8; 0xc4ac5665;
   0xf4292244; 0x432aff97; 0xab9423a7; 0xfc93a039;
   0x655b59c3; 0x8f0ccc92; 0xffeff47d; 0x85845dd1;
   0x6fa87e4f; 0xfe2ce6e0; 0xa3014314; 0x4e0811a1;
   0xf7537e82; 0xbd3af235; 0x2ad7d2bb; 0xeb86d391].

(** The message with its padding: a [0x80] byte, zero bytes up to 56
    modulo 64, and the length in bits as eight little-endian bytes. *)
Fixpoint le_bytes (n : nat) (x : N) : list N :=
  match n with
  | O => []
  | S n' => N.land x 0xff :: le_bytes n' (N.shiftr x 8)
  end.

Definition padded (msg : list N) : list N :=
  let len := List.length msg in
  let zeros := ((64 + 55 - (len mod 64)) mod 64)%nat in
  msg ++ [0x80] ++ repeat 0 zeros ++ le_bytes 8 (8 * N.of_nat len).

Fixpoint le_word (bs : list N) : N :=
  match bs with
  | [] => 0
  | b :: r => b + 256 * le_word r
  end.

Fixpoint words (n : nat) (bs : list N) : list N :=
  match n with
  | O => []
  | S n' => le_word (firstn 4 bs) :: words n' (skipn 4 bs)
  end.

Definition state : Type := N * N * N * N.

Definition round (M : list N) (st : state) (i : nat) : state :=
  let '(A, B, C, D) := st in
  let '(F, g) :=
    if Nat.ltb i 16 then (N.lor (N.land B C) (N.land (not32 B) D), i)
    else if Nat.ltb i 32 then (N.lor (N.land D B) (N.land (not32 D) C), (5 * i + 1) mod 16)%nat
    else if Nat.ltb i 48 then (N.lxor B (N.lxor C D), (3 * i + 5) mod 16)%nat
    else (N.lxor C (N.lor B (not32 D)), (7 * i) mod 16)%nat in
  let F := add32 (add32 (add32 F A) (nth i sines 0)) (nth g M 0) in
  (D, add32 B (rotl32 F (nth i shifts 0)), B, C).

Definition chunk (st : state) (bs : list N) : state :=
  let '(A, B, C, D) := st in
  let '(A', B', C', D') := fold_left (round (words 16 bs)) (seq 0 64) st in
  (add32 A A', add32 B B', add32 C C', add32 D D').

Fixpoint chunks (n : nat) (st : state) (bs : list N) : state :=
  match n with
  | O => st
  | S n' => chunks n' (chunk st (firstn 64 bs)) (skipn 64 bs)
  end.

(** The sixteen bytes of the digest. *)
Definition digest (msg : list N) : list N :=
  let bs := padded msg in
  let '(A, B, C, D) :=
    chunks (List.length bs / 64) (0x67452301, 0xefcdab89, 0x98badcfe, 0x10325476) bs in
  le_bytes 4 A ++ le_bytes 4 B ++ le_bytes 4 C ++ le_bytes 4 D.

End MD5.

(** [s.encode()] as numbers. *)
Definition bytes_of_string (s : string) : list N := map N_of_ascii (list_ascii_of_string s).

Definition hex_digit (n : N) : ascii :=
  nth (N.to_nat n) (list_ascii_of_string "0123456789abcdef") "0"%char.

Definition hex_of_bytes (bs : list N) : string :=
  string_of_list_ascii
    (flat_map (fun b => [hex_digit (N.shiftr b 4); hex_digit (N.land b 15)]) bs).

Definition base64_alphabet : list ascii :=
  list_ascii_of_string "ABCDEFGHIJKLMNOPQRSTUVWXYZabcdefghijklmnopqrstuvwxyz0123456789+/".

Definition base64_char (n : N) : ascii := nth (N.to_nat n) base64_alphabet "A"%char.

Fixpoint b64encode_bytes (fuel : nat) (bs : list N) : list ascii :=
  match fuel with
  | O => []
  | S fuel' =>
      match bs with
      | [] => []
      | [x] =>
          [base64_char (N.shiftr x 2); base64_char (N.land (N.shiftl x 4) 63);
           "="%char; "="%char]
      | [x; y] =>
          [base64_char (N.shiftr x 2);
           base64_char (N.land (N.lor (N.shiftl x 4) (N.shiftr y 4)) 63);
           base64_char (N.land (N.shiftl y 2) 63); "="%char]
      | x :: y :: z :: r =>
          base64_char (N.shiftr x 2)
          :: base64_char (N.land (N.lor (N.shiftl x 4) (N.shiftr y 4)) 63)
          :: base64_char (N.land (N.lor (N.shiftl y 2) (N.shiftr z 6)) 63)
          :: base64_char (N.land z 63)
          :: b64encode_bytes fuel' r
      end
  end.

Definition b64encode (bs : list N) : string :=
  string_of_list_ascii (b64encode_bytes (S (List.length bs)) bs).

(** [hashlib.md5(s).hexdigest()] *)
Definition md5_hexdigest (s : string) : string := hex_of_bytes (MD5.digest (bytes_of_string s)).
(** [base64.b64encode(hashlib.md5(s).digest()).decode()] *)
Definition md5_digest_b64 (s : string) : string := b64encode (MD5.digest (bytes_of_string s)).

(** ** posixpath *)

Module PosixPath.

Definition is_sep (c : ascii) : bool := Ascii.eqb c slash_char.

(** [(p[:i], p[i:])] for [i = p.rfind('/') + 1]. *)
Fixpoint rsplit_sep (p : string) : string * string :=
  match p with
  | EmptyString => (EmptyString, EmptyString)
  | String c r =>
      let (h, t) := rsplit_sep r in
      if is_sep c then (String c h, t)
      else match h with
           | EmptyString => (EmptyString, String c t)
           | String _ _ => (String c h, t)
           end
  end.

(** [head == sep * len(head)] *)
Fixpoint all_sep (s : string) : bool :=
  match s with
  | EmptyString => true
  | String c r => is_sep c && all_sep r
  end.

Definition split (p : string) : string * string :=
  let (head, tail) := rsplit_sep p in
  (if negb (is_empty head) && negb (all_sep head) then rstrip slash_char head else head,
   tail).

Definition dirname (p : string) : string := fst (split p).
Definition basename (p : string) : string := snd (split p).

End PosixPath.

(** ** Object records *)

Inductive month_name := Jan | Feb | Mar | Apr | May | Jun | Jul | Aug | Sep | Oct | Nov | Dec.

(** The fields of a [datetime] the listing shows. *)
Record datetime := {
  dt_year : nat;
  dt_month : month_name;
  dt_day : nat;
  dt_hour : nat;
  dt_minute : nat
}.

Definition month_abbr (m : month_name) : string :=
  match m with
  | Jan => "Jan" | Feb => "Feb" | Mar => "Mar" | Apr => "Apr"
  | May => "May" | Jun => "Jun" | Jul => "Jul" | Aug => "Aug"
  | Sep => "Sep" | Oct => "Oct" | Nov => "Nov" | Dec => "Dec"
  end.

(** [date.strftime("%d-%b-%Y %H:%M")], month names of the C locale. *)
Definition strftime (d : datetime) : string :=
  two_digits (dt_day d) ++ "-" ++ month_abbr (dt_month d) ++ "-" ++ str_of_nat (dt_year d)
  ++ " " ++ two_digits (dt_hour d) ++ ":" ++ two_digits (dt_minute d).

(** One element of the [Contents] list of a listing response; the fields
    the program reads. *)
Record s3object := {
  Key : string;
  LastModified : datetime;
  Size : nat;
  ETag : string
}.

(** ** Dictionaries in insertion order *)

Section Dict.

Context {V : Type}.

Definition dict := list (string * V).

Definition keys (d : dict) : list string := map fst d.

Fixpoint dict_get (k : string) (d : dict) : option V :=
  match d with
  | [] => None
  | (k', v) :: r => if String.eqb k' k then Some v else dict_get k r
  end.

(** [k in d] *)
Definition dict_mem (k : string) (d : dict) : bool :=
  match dict_get k d with
  | Some _ => true
  | None => false
  end.

(** [d[k] = v]: an existing key keeps its position, a new key goes last. *)
Fixpoint dict_set (k : string) (v : V) (d : dict) : dict :=
  match d with
  | [] => [(k, v)]
  | (k', v') :: r =>
      if String.eqb k' k then (k, v) :: r else (k', v') :: dict_set k v r
  end.

End Dict.

Arguments dict V : clear implicits.

(** [files[k]] on a [defaultdict(list)]: a missing key is inserted with an
    empty list. *)
Definition defaultdict_touch {A : Type} (k : string) (d : dict (list A)) : dict (list A) :=
  if dict_mem k d then d else dict_set k [] d.

Definition defaultdict_get {A : Type} (k : string) (d : dict (list A)) : list A :=
  match dict_get k d with
  | Some v => v
  | None => []
  end.

(** [x in l] for a list of strings. *)
Definition mem (x : string) (l : list string) : bool := existsb (String.eqb x) l.

(** [s.add(x)] on a set kept as a duplicate-free list. *)
Definition set_add (x : string) (s : list string) : list string :=
  if mem x s then s else s ++ [x].

(** ** The listing service and the outcome of a computation *)

(** Keyword arguments of [s3.list_objects_v2]. *)
Record request := {
  req_Bucket : string;
  req_Prefix : option string;
  req_ContinuationToken : option string
}.

(** The response dictionary: ['Contents'] is absent when no key matches,
    ['NextContinuationToken'] is present on a truncated page. *)
Record response := {
  Contents : option (list s3object);
  IsTruncated : bool;
  NextContinuationToken : option string
}.

(** A loop of the program either finishes, fails on a missing dictionary
    key, or is still running when the fuel is spent. *)
Inductive result (A : Type) :=
| Ok (a : A)
| KeyError (k : string)
| OutOfFuel.

Arguments Ok {A} a.
Arguments KeyError {A} k.
Arguments OutOfFuel {A}.

Definition bind {A B : Type} (r : result A) (f : A -> result B) : result B :=
  match r with
  | Ok a => f a
  | KeyError k => KeyError k
  | OutOfFuel => OutOfFuel
  end.

Notation "x <- e ;; k" := (bind e (fun x => k))
  (at level 61, e at next level, right associativity).

(** ** Listing generation *)

(** [(name, date, size)]; a subdirectory has neither date nor size. *)
Definition entry : Type := string * option datetime * option nat.

Definition entry_name (e : entry) : string := fst (fst e).
Definition entry_size (e : entry) : option nat := snd e.

(** The name a row shows: [name + ('/' if size is None else '')]. *)
Definition display_name (e : entry) : string :=
  entry_name e ++ match entry_size e with
                  | None => "/"
                  | Some _ => EmptyString
                  end.

(** [sorted(entries, key=lambda x: x[0])]: a stable sort on the first
    component, smallest first.  The result of a stable sort is determined
    by its input, so insertion stands for the sort Python uses. *)
Fixpoint insert_by_name (e : entry) (l : list entry) : list entry :=
  match l with
  | [] => [e]
  | e' :: r =>
      if String.leb (entry_name e) (entry_name e') then e :: l
      else e' :: insert_by_name e r
  end.

Fixpoint sorted_by_name (l : list entry) : list entry :=
  match l with
  | [] => []
  | e :: r => insert_by_name e (sorted_by_name r)
  end.

(** The unsorted [entries] list: files of the directory, then the
    subdirectories found among the keys. *)
Definition index_entries (files : dict (list s3object)) (directory : string) : list entry :=
  map (fun f => (PosixPath.basename (Key f), Some (LastModified f), Some (Size f)))
      (defaultdict_get directory files)
  ++ map (fun dn => (PosixPath.basename dn, None, None))
         (filter (fun dn => negb (String.eqb dn EmptyString)
                            && String.eqb (PosixPath.dirname dn) directory)
                 (keys (defaultdict_touch directory files))).

(** The rows in the order the loop writes them. *)
Definition listing_rows (files : dict (list s3object)) (directory : string) : list entry :=
  sorted_by_name (index_entries files directory).

Definition parent_row : string :=
  "<tr><td><a href=" ++ q ++ "../" ++ q ++ ">../</a></td><td></td><td></td></tr>" ++ nl.

Definition render_row (e : entry) : string :=
  let '(name, date, size) := e in
  "<tr><td><a href=" ++ q ++ display_name e ++ q ++ ">" ++ display_name e
  ++ "</a></td><td>"
  ++ match date with
     | Some d => strftime d
     | None => EmptyString
     end
  ++ "</td><td>"
  ++ match size with
     | Some n => str_of_nat n
     | None => EmptyString
     end
  ++ "</td></tr>" ++ nl.

Definition index_head (directory : string) : string :=
  "<!DOCTYPE html>" ++ nl
  ++ "<html>" ++ nl ++ "<head>" ++ nl ++ "<title>Index of " ++ directory ++ "/</title>" ++ nl
  ++ "<style>table {font-family: monospace;} table td { padding-right: 40px;}</style>" ++ nl
  ++ "</head>" ++ nl ++ "<body>" ++ nl ++ "<h1>Index of " ++ directory ++ "/</h1>" ++ nl
  ++ "<hr>" ++ nl ++ "<table>" ++ nl.

Definition index_tail : string :=
  "</table>" ++ nl ++ "</body>" ++ nl ++ "</html>" ++ nl.

(** The text written to the [StringIO]. *)
Definition index_body (files : dict (list s3object)) (directory : string) : string :=
  index_head directory
  ++ (if negb (String.eqb directory EmptyString) then parent_row else EmptyString)
  ++ String.concat EmptyString (map render_row (listing_rows files directory))
  ++ index_tail.

(** [generate_index_for(files, directory)]: the text, and the dictionary
    as the call leaves it ([files[directory]] inserts a missing key). *)
Definition generate_index_for (files : dict (list s3object)) (directory : string)
  : string * dict (list s3object) :=
  (index_body files directory, defaultdict_touch directory files).

(** ** Directory completion *)

(** The [while dn and dn != prefix] loop, collecting into [add]. *)
Fixpoint ascend (fuel : nat) (files : dict (list s3object)) (prefix : string)
  (dn : string) (add : list string) : option (list string) :=
  match fuel with
  | O => None
  | S fuel' =>
      if negb (is_empty dn) && negb (String.eqb dn prefix) then
        ascend fuel' files prefix (PosixPath.dirname dn)
          (if negb (dict_mem dn files) && negb (mem dn add) then add ++ [dn] else add)
      else Some add
  end.

(** The [for k in files.keys()] loop around it. *)
Fixpoint collect_missing (fuel : nat) (files : dict (list s3object)) (prefix : string)
  (ks : list string) (add : list string) : option (list string) :=
  match ks with
  | [] => Some add
  | k :: ks' =>
      match ascend fuel files prefix (PosixPath.dirname k) add with
      | None => None
      | Some add' => collect_missing fuel files prefix ks' add'
      end
  end.

(** [fill_missing_parent_directories(files, prefix)]; [None] when a
    [while] loop has not finished within [fuel] iterations. *)
Definition fill_missing_parent_directories (fuel : nat) (files : dict (list s3object))
  (prefix : string) : option (dict (list s3object)) :=
  match collect_missing fuel files prefix (keys files) [] with
  | None => None
  | Some add =>
      let add := if negb (dict_mem prefix files) then add ++ [prefix] else add in
      Some (fold_left (fun fs k => dict_set k [] fs) add files)
  end.

(** ** Events of a run *)

(** The calls that change the bucket or the cache, and the output. *)
Inductive event :=
| delete_object (Bucket Key : string)
| put_object (Bucket Key Body ContentMD5 ContentType : string)
| create_invalidation (DistributionId : string) (Quantity : nat) (Items : list string)
    (CallerReference : string)
| print (msg : string)
| sys_exit (code : nat).

(** How a run ends. *)
Inductive outcome :=
| Finished
| Exited (code : nat)
| Raised (k : string)
| Diverged.

(** What a run has done so far: the calls in order and the
    [invalidations] set. *)
Record run_state := {
  calls : list event;
  invalidations : list string
}.

Record arguments := {
  arg_bucket : string;
  arg_prefix : option string;
  arg_cfdistribution : option string;
  arg_quiet : bool
}.

(** ['{}/index.html'.format(d) if d else 'index.html'] *)
Definition index_key (d : string) : string :=
  if is_empty d then "index.html" else d ++ "/index.html".

(** ['/{}/'.format(d) if d else '/'] *)
Definition invalidation_path (d : string) : string :=
  if is_empty d then "/" else "/" ++ d ++ "/".

(** [args.prefix.rstrip('/') if args.prefix else ''] *)
Definition operating_prefix (a : arguments) : string :=
  match arg_prefix a with
  | Some p => if is_empty p then EmptyString else rstrip slash_char p
  | None => EmptyString
  end.

Section Program.

(** [s3.list_objects_v2], as the bucket answers during the run. *)
Variable list_objects_v2 : request -> response.

(** The [while True] loop of [get_complete_bucket], from response [r]
    on; [acc] holds the records yielded so far. *)
Fixpoint get_pages (fuel : nat) (bucket : string) (r : response) (acc : list s3object)
  : result (list s3object) :=
  match fuel with
  | O => OutOfFuel
  | S fuel' =>
      match Contents r with
      | None => Ok acc
      | Some cs =>
          if negb (IsTruncated r) then Ok (acc ++ cs)
          else match NextContinuationToken r with
               | None => KeyError "NextContinuationToken"
               | Some t =>
                   get_pages fuel' bucket
                     (list_objects_v2 {| req_Bucket := bucket;
                                         req_Prefix := None;
                                         req_ContinuationToken := Some t |})
                     (acc ++ cs)
               end
      end
  end.

(** [get_complete_bucket(bucket, prefix)], drained. *)
Definition get_complete_bucket (fuel : nat) (bucket prefix : string)
  : result (list s3object) :=
  get_pages fuel bucket
    (if negb (is_empty prefix)
     then list_objects_v2 {| req_Bucket := bucket;
                             req_Prefix := Some prefix;
                             req_ContinuationToken := None |}
     else list_objects_v2 {| req_Bucket := bucket;
                             req_Prefix := None;
                             req_ContinuationToken := None |})
    [].

(** The body of the loop of [split_bucket_contents]. *)
Definition split_step (acc : dict s3object * dict (list s3object)) (o : s3object)
  : dict s3object * dict (list s3object) :=
  let (indexes, files) := acc in
  let (dn, fn) := PosixPath.split (Key o) in
  if String.eqb fn "index.html" then (dict_set dn o indexes, files)
  else (indexes, dict_set dn (defaultdict_get dn files ++ [o]) files).

Definition split_records (objs : list s3object) : dict s3object * dict (list s3object) :=
  fold_left split_step objs ([], []).

Definition split_bucket_contents (fuel : nat) (bucket prefix : string)
  : result (dict s3object * dict (list s3object)) :=
  objs <- get_complete_bucket fuel bucket prefix ;;
  Ok (split_records objs).

(** One round of the loop that removes listings of vanished directories. *)
Definition delete_step (a : arguments) (files : dict (list s3object))
  (st : run_state) (i : string) : run_state :=
  if negb (dict_mem i files) then
    {| calls := calls st ++ [delete_object (arg_bucket a) (index_key i);
                             print ("Index removed: " ++ index_key i)];
       invalidations := set_add (invalidation_path i) (invalidations st) |}
  else st.

(** One round of the loop over [files.keys()]. *)
Definition reconcile_step (a : arguments) (indexes : dict s3object)
  (acc : dict (list s3object) * run_state) (d : string)
  : dict (list s3object) * run_state :=
  let (files, st) := acc in
  let (body, files) := generate_index_for files d in
  let idx := body in
  let md5h := md5_hexdigest idx in
  let write (msg : list event) :=
    (files,
     {| calls := calls st ++ msg
                 ++ [put_object (arg_bucket a) (index_key d) idx
                       (md5_digest_b64 idx) "text/html"];
        invalidations := set_add (invalidation_path d) (invalidations st) |}) in
  match dict_get d indexes with
  | None =>
      write (if arg_quiet a then []
             else [print ("Generate new index file in " ++ d)])
  | Some o =>
      if negb (String.eqb (strip dquote_char (ETag o)) md5h) then
        write (if arg_quiet a then []
               else [print ("Update index file in " ++ d ++ " (hash from "
                            ++ strip dquote_char (ETag o) ++ " to " ++ md5h ++ ")")])
      else (files, st)
  end.

Definition delete_pass (a : arguments) (files : dict (list s3object))
  (dirs : list string) (st : run_state) : run_state :=
  fold_left (delete_step a files) dirs st.

Definition reconcile_pass (a : arguments) (indexes : dict s3object)
  (ks : list string) (acc : dict (list s3object) * run_state)
  : dict (list s3object) * run_state :=
  fold_left (reconcile_step a indexes) ks acc.

(** The invalidation request that ends the run.  [Items] is listed in
    the order of insertion; Python leaves the order of [list(set)] open. *)
Definition invalidate (a : arguments) (uuid4 : string) (st : run_state) : run_state :=
  match invalidations st, arg_cfdistribution a with
  | _ :: _, Some dist =>
      if negb (is_empty dist) then
        {| calls := calls st
                    ++ [create_invalidation dist (List.length (invalidations st))
                          (invalidations st) uuid4]
                    ++ (if arg_quiet a then []
                        else [print ("Issued invalidation for "
                                     ++ str_of_nat (List.length (invalidations st))
                                     ++ " paths")]);
           invalidations := invalidations st |}
      else st
  | _, _ => st
  end.

(** The script body.  [uuid4] is the value [uuid.uuid4()] returns. *)
Definition main (fuel : nat) (a : arguments) (uuid4 : string) : run_state * outcome :=
  let prefix := operating_prefix a in
  let start := {| calls := []; invalidations := [] |} in
  match split_bucket_contents fuel (arg_bucket a) prefix with
  | OutOfFuel => (start, Diverged)
  | KeyError k => (start, Raised k)
  | Ok (indexes, files) =>
      match files with
      | [] => ({| calls := [print "No files found."; sys_exit 0];
                  invalidations := [] |}, Exited 0)
      | _ :: _ =>
          match fill_missing_parent_directories fuel files prefix with
          | None => (start, Diverged)
          | Some files =>
              let st := delete_pass a files (keys indexes) start in
              let (_, st) := reconcile_pass a indexes (keys files) (files, st) in
              (invalidate a uuid4 st, Finished)
          end
      end
  end.

End Program.

(** ** The bucket behind the calls

    The service is not part of the program.  This is the behaviour of S3
    the program relies on: keys are listed in ascending order, a request is
    answered with at most [max_keys] records whose keys start with the
    [Prefix] of that request and lie after its [ContinuationToken], a
    stored object carries the quoted hex MD5 of its body as entity tag. *)

Module S3.

Definition bucket_state := list s3object.

Definition list_objects_v2 (max_keys : nat) (st : bucket_state) (r : request) : response :=
  let resumed :=
    match req_ContinuationToken r with
    | None => st
    | Some t => filter (fun o => String.ltb t (Key o)) st
    end in
  let matching :=
    match req_Prefix r with
    | None => resumed
    | Some p => filter (fun o => String.prefix p (Key o)) resumed
    end in
  let page := firstn max_keys matching in
  match List.rev page with
  | [] => {| Contents := None; IsTruncated := false; NextContinuationToken := None |}
  | final :: _ =>
      if Nat.ltb max_keys (List.length matching)
      then {| Contents := Some page; IsTruncated := true;
              NextContinuationToken := Some (Key final) |}
      else {| Contents := Some page; IsTruncated := false;
              NextContinuationToken := None |}
  end.

(** The keys of a bucket are listed in ascending order. *)
Definition ascending (st : bucket_state) : Prop :=
  StronglySorted (fun o o' => String.ltb (Key o) (Key o') = true) st.

(** Store [o], keeping the keys in ascending order. *)
Fixpoint store (o : s3object) (st : bucket_state) : bucket_state :=
  match st with
  | [] => [o]
  | o' :: r =>
      if String.eqb (Key o') (Key o) then o :: r
      else if String.ltb (Key o) (Key o') then o :: st
      else o' :: store o r
  end.

Definition remove (k : string) (st : bucket_state) : bucket_state :=
  filter (fun o => negb (String.eqb (Key o) k)) st.

(** The effect of one call of the program on the bucket; [now] is the
    time of the write. *)
Definition apply (now : datetime) (st : bucket_state) (e : event) : bucket_state :=
  match e with
  | put_object _ k body _ _ =>
      store {| Key := k; LastModified := now; Size := String.length body;
               ETag := q ++ md5_hexdigest body ++ q |} st
  | delete_object _ k => remove k st
  | _ => st
  end.

(** One run of the script against the bucket: what the run did, and the
    bucket afterwards. *)
Definition run (max_keys : nat) (now : datetime) (fuel : nat) (a : arguments)
  (uuid4 : string) (st : bucket_state) : (run_state * outcome) * bucket_state :=
  let r := main (list_objects_v2 max_keys st) fuel a uuid4 in
  (r, fold_left (apply now) (calls (fst r)) st).

End S3.

(** ** Notions the properties are stated with *)

(** [a] is met when ascending from [d] one directory at a time; the ascent
    ends at the operating prefix, or at the empty path, and does not start
    when [d] is the prefix itself. *)
Inductive ancestor_upto (prefix : string) (d : string) : string -> Prop :=
| ancestor_parent : d <> prefix -> ancestor_upto prefix d (PosixPath.dirname d)
| ancestor_above (a : string) :
    ancestor_upto prefix d a ->
    a <> EmptyString -> a <> prefix ->
    ancestor_upto prefix d (PosixPath.dirname a).

(** Where an ascent may pass or end: the root, the prefix, a key, or a
    directory scheduled for insertion. *)
Definition covered (files : dict (list s3object)) (prefix : string)
  (add : list string) (x : string) : Prop :=
  x = EmptyString \/ x = prefix \/ In x (keys files) \/ In x add.

(** A directory scheduled for insertion: new, and its parent covered. *)
Definition fresh (files : dict (list s3object)) (prefix : string)
  (add : list string) (x : string) : Prop :=
  x <> EmptyString /\ x <> prefix /\ ~ In x (keys files)
  /\ covered files prefix add (PosixPath.dirname x).

(** A path that starts with the separator. *)
Definition leading_sep (s : string) : bool :=
  match s with
  | EmptyString => false
  | String c _ => PosixPath.is_sep c
  end.

(** Fuel that lets every ascent from a key of [files] finish. *)
Definition ascent_fuel (files : dict (list s3object)) : nat :=
  S (fold_right (fun k n => Nat.max (String.length k) n) 0 (keys files)).



Definition is_put (k : string) (e : event) : bool :=
  match e with
  | put_object _ k' _ _ _ => String.eqb k' k
  | _ => false
  end.


(** The key a call writes or deletes, if it does. *)
Definition mutated_key (e : event) : option string :=
  match e with
  | put_object _ k _ _ _ => Some k
  | delete_object _ k => Some k
  | _ => None
  end.

Definition is_invalidation (e : event) : bool :=
  match e with
  | create_invalidation _ _ _ _ => true
  | _ => false
  end.

(** No separator in [s]. *)
Fixpoint slash_free (s : string) : bool :=
  match s with
  | EmptyString => true
  | String c r => negb (PosixPath.is_sep c) && slash_free r
  end.

(** Whether the text read so far ends with a separator; [b] says so for
    the text before [s]. *)
Fixpoint ends_slash (b : bool) (s : string) : bool :=
  match s with
  | EmptyString => b
  | String c r => ends_slash (PosixPath.is_sep c) r
  end.

(** What follows each separator immediately followed by a double quote. *)
Fixpoint after_slash_quote (b : bool) (s : string) : list string :=
  match s with
  | EmptyString => []
  | String c r =>
      (if b && Ascii.eqb c dquote_char then [r] else [])
      ++ after_slash_quote (PosixPath.is_sep c) r
  end.

(** A record named [index.html], and the directory a record lies in. *)
Definition is_listing (o : s3object) : bool :=
  String.eqb (PosixPath.basename (Key o)) "index.html".

Definition directory_of (o : s3object) : string := PosixPath.dirname (Key o).

(** The pages the service hands out from response [r] on, each reached
    with the token of the one before, and the records they hold. *)
Inductive page_chain (api : request -> response) (bucket : string)
  : response -> list s3object -> Prop :=
| chain_no_contents (r : response) :
    Contents r = None -> page_chain api bucket r []
| chain_last (r : response) (cs : list s3object) :
    Contents r = Some cs -> IsTruncated r = false -> page_chain api bucket r cs
| chain_next (r : response) (cs rest : list s3object) (t : string) :
    Contents r = Some cs -> IsTruncated r = true -> NextContinuationToken r = Some t ->
    page_chain api bucket
      (api {| req_Bucket := bucket; req_Prefix := None; req_ContinuationToken := Some t |})
      rest ->
    page_chain api bucket r (cs ++ rest).

(** The request [get_complete_bucket] starts with. *)
Definition first_request (bucket prefix : string) : request :=
  {| req_Bucket := bucket;
     req_Prefix := if is_empty prefix then None else Some prefix;
     req_ContinuationToken := None |}.

Definition is_print (e : event) : bool :=
  match e with
  | print _ => true
  | _ => false
  end.

(** The arguments with [--quiet] set or cleared. *)
Definition with_quiet (b : bool) (a : arguments) : arguments :=
  {| arg_bucket := arg_bucket a; arg_prefix := arg_prefix a;
     arg_cfdistribution := arg_cfdistribution a; arg_quiet := b |}.

(** No double quote in [s]. *)
Fixpoint quote_free (s : string) : bool :=
  match s with
  | EmptyString => true
  | String c r => negb (Ascii.eqb c dquote_char) && quote_free r
  end.

(** [dirname] applied [n] times. *)
Fixpoint ancestor (n : nat) (p : string) : string :=
  match n with
  | O => p
  | S n' => PosixPath.dirname (ancestor n' p)
  end.

(** ** Sample data *)

Definition sample_time : datetime :=
  {| dt_year := 2020; dt_month := Mar; dt_day := 5; dt_hour := 7; dt_minute := 9 |}.

(** An object of twelve bytes stored under key [k]. *)
Definition sample_object (k : string) : s3object :=
  {| Key := k; LastModified := sample_time; Size := 12; ETag := "0" |}.

(** One file five directories down. *)
Definition deep_files : dict (list s3object) :=
  [("a/b/c/d/e", [sample_object "a/b/c/d/e/f.txt"])].




(** Arguments of a run on the bucket [bucket], with a distribution to
    invalidate and status messages on. *)
Definition sample_arguments (prefix : option string) : arguments :=
  {| arg_bucket := "bucket"; arg_prefix := prefix;
     arg_cfdistribution := Some "E2EXAMPLE"; arg_quiet := false |}.

(** Buckets, keys ascending. *)
Definition one_file_bucket : S3.bucket_state := [sample_object "f.txt"].

Definition stale_bucket : S3.bucket_state :=
  [sample_object "f.txt"; sample_object "old/index.html"].

Definition listings_only_bucket : S3.bucket_state :=
  [sample_object "photos/2019/index.html"].

Definition nested_bucket : S3.bucket_state := [sample_object "a/b/f.txt"].

Definition doubled_separator_bucket : S3.bucket_state :=
  [sample_object "f.txt"; sample_object "x//index.html"].

Definition paged_bucket : S3.bucket_state :=
  [sample_object "a/1"; sample_object "a/2"; sample_object "a/3"; sample_object "b/1"].

(** [one_file_bucket] after a run without prefix. *)
Definition reconciled_bucket : S3.bucket_state :=
  snd (S3.run 1000 sample_time 10 (sample_arguments None) "run-1" one_file_bucket).

(** The files of a run on the prefix [a]. *)
Definition prefix_files : dict (list s3object) := [("a", [sample_object "a/f.txt"])].

(** The files of a run on the prefix [a] whose only object is [ab/c/d.txt]. *)
Definition sibling_files : dict (list s3object) := [("ab/c", [sample_object "ab/c/d.txt"])].

(** * Properties *)

(** ** Dictionaries *)

Lemma mem_In (x : string) (l : list string) : mem x l = true <-> In x l.
Proof.
  unfold mem. rewrite existsb_exists. split.
  - intros [y [Hy Heq]]. apply String.eqb_eq in Heq. now subst.
  - intros H. exists x. split; [assumption | apply String.eqb_refl].
Qed.

Lemma mem_false (x : string) (l : list string) : mem x l = false <-> ~ In x l.
Proof.
  rewrite <- mem_In. destruct (mem x l); split; congruence.
Qed.

Lemma dict_mem_In {V : Type} (k : string) (d : dict V) :
  dict_mem k d = true <-> In k (keys d).
Proof.
  unfold dict_mem. induction d as [|[k' v] r IH]; simpl.
  - split; [discriminate | tauto].
  - destruct (String.eqb_spec k' k) as [->|Hne].
    + split; auto.
    + rewrite IH. split; [auto | intros [H|H]; [contradiction | assumption]].
Qed.

Lemma dict_mem_false {V : Type} (k : string) (d : dict V) :
  dict_mem k d = false <-> ~ In k (keys d).
Proof.
  rewrite <- dict_mem_In. destruct (dict_mem k d); split; congruence.
Qed.

Lemma dict_get_None {V : Type} (k : string) (d : dict V) :
  dict_get k d = None <-> ~ In k (keys d).
Proof.
  rewrite <- dict_mem_false. unfold dict_mem.
  destruct (dict_get k d); split; congruence.
Qed.

Lemma keys_dict_set {V : Type} (k : string) (v : V) (d : dict V) :
  keys (dict_set k v d) = if dict_mem k d then keys d else keys d ++ [k].
Proof.
  unfold dict_mem. induction d as [|[k' v'] r IH]; simpl; [reflexivity|].
  destruct (String.eqb_spec k' k) as [->|Hne]; simpl; [reflexivity|].
  rewrite IH. destruct (dict_get k r); reflexivity.
Qed.

Lemma In_keys_dict_set {V : Type} (k : string) (v : V) (d : dict V) (x : string) :
  In x (keys (dict_set k v d)) <-> x = k \/ In x (keys d).
Proof.
  rewrite keys_dict_set. destruct (dict_mem k d) eqn:E.
  - apply dict_mem_In in E. split; [auto | intros [->|H]; assumption].
  - rewrite in_app_iff. simpl. split.
    + intros [H|[H|[]]]; auto.
    + intros [H|H]; auto.
Qed.

Lemma dict_get_set_same {V : Type} (k : string) (v : V) (d : dict V) :
  dict_get k (dict_set k v d) = Some v.
Proof.
  induction d as [|[k' v'] r IH]; simpl.
  - now rewrite String.eqb_refl.
  - destruct (String.eqb_spec k' k) as [->|Hne]; simpl.
    + now rewrite String.eqb_refl.
    + apply String.eqb_neq in Hne. now rewrite Hne.
Qed.

Lemma dict_get_set_other {V : Type} (k k' : string) (v : V) (d : dict V) :
  k' <> k -> dict_get k' (dict_set k v d) = dict_get k' d.
Proof.
  intros Hne. induction d as [|[k0 v0] r IH]; simpl.
  - destruct (String.eqb_spec k k'); [congruence | reflexivity].
  - destruct (String.eqb_spec k0 k) as [->|Hne0]; simpl.
    + destruct (String.eqb_spec k k'); [congruence | reflexivity].
    + destruct (String.eqb_spec k0 k'); [reflexivity | assumption].
Qed.


Lemma In_keys_fold_set {A : Type} (add : list string) (files : dict (list A)) (x : string) :
  In x (keys (fold_left (fun fs k => dict_set k [] fs) add files))
  <-> In x (keys files) \/ In x add.
Proof.
  revert files. induction add as [|k add IH]; intros files; simpl.
  - tauto.
  - rewrite IH, In_keys_dict_set. intuition (subst; auto).
Qed.

Lemma dict_get_fold_set_old {A : Type} (add : list string) (files : dict (list A)) (x : string) :
  ~ In x add ->
  dict_get x (fold_left (fun fs k => dict_set k [] fs) add files) = dict_get x files.
Proof.
  revert files. induction add as [|k add IH]; intros files Hx; simpl; [reflexivity|].
  simpl in Hx. rewrite IH by tauto. apply dict_get_set_other. intros ->. tauto.
Qed.

(** ** Directory completion *)

Section Completion.

Variable files : dict (list s3object).
Variable prefix : string.

Lemma covered_incl (add add' : list string) (x : string) :
  incl add add' -> covered files prefix add x -> covered files prefix add' x.
Proof.
  unfold covered. intros Hi [H|[H|[H|H]]]; auto.
Qed.

Lemma ascend_spec (fuel : nat) : forall dn add add',
  ascend fuel files prefix dn add = Some add' ->
  incl add add'
  /\ covered files prefix add' dn
  /\ (forall x, In x add' -> In x add \/ fresh files prefix add' x).
Proof.
  induction fuel as [|fuel IH]; intros dn add add' H; simpl in H; [discriminate|].
  destruct (is_empty dn) eqn:Hemp; simpl in H.
  - injection H as <-. destruct dn; [|discriminate].
    repeat split; [apply incl_refl | left; reflexivity | auto].
  - destruct (String.eqb_spec dn prefix) as [->|Hne]; simpl in H.
    + injection H as <-.
      repeat split; [apply incl_refl | right; left; reflexivity | auto].
    + assert (Hdn : dn <> EmptyString) by (intros ->; discriminate).
      apply IH in H. destruct H as [Hincl [Hcov Hnew]].
      destruct (dict_mem dn files) eqn:Hf; simpl in *.
      * apply dict_mem_In in Hf. repeat split; auto.
        right; right; left; assumption.
      * apply dict_mem_false in Hf.
        destruct (mem dn add) eqn:Ha; simpl in *.
        -- apply mem_In in Ha. repeat split; auto.
           right; right; right. apply Hincl, Ha.
        -- assert (Hin : In dn add') by (apply Hincl, in_or_app; right; left; reflexivity).
           repeat split.
           ++ intros x Hx. apply Hincl, in_or_app. left; assumption.
           ++ right; right; right; assumption.
           ++ intros x Hx. destruct (Hnew x Hx) as [Hx'|Hx']; [|right; assumption].
              apply in_app_or in Hx'. destruct Hx' as [Hx'|[<-|[]]]; [left; assumption|].
              right. repeat split; assumption.
Qed.

Lemma fresh_incl (add add' : list string) (x : string) :
  incl add add' -> fresh files prefix add x -> fresh files prefix add' x.
Proof.
  unfold fresh. intros Hi (H1 & H2 & H3 & H4). repeat split; auto.
  eapply covered_incl; eassumption.
Qed.

Lemma collect_missing_spec (fuel : nat) (ks : list string) : forall add add',
  collect_missing fuel files prefix ks add = Some add' ->
  incl add add'
  /\ (forall k, In k ks -> covered files prefix add' (PosixPath.dirname k))
  /\ (forall x, In x add' -> In x add \/ fresh files prefix add' x).
Proof.
  induction ks as [|k ks IH]; intros add add' H; simpl in H.
  - injection H as <-. repeat split; [apply incl_refl | intros k [] | auto].
  - destruct (ascend fuel files prefix (PosixPath.dirname k) add) as [add1|] eqn:Ha;
      [|discriminate].
    apply ascend_spec in Ha. destruct Ha as (Hi1 & Hc1 & Hn1).
    apply IH in H. destruct H as (Hi2 & Hc2 & Hn2).
    repeat split.
    + eapply incl_tran; eassumption.
    + intros k' [<-|Hk']; [eapply covered_incl; eassumption | auto].
    + intros x Hx. destruct (Hn2 x Hx) as [Hx1|Hx1]; [|right; assumption].
      destruct (Hn1 x Hx1) as [Hx0|Hx0]; [left; assumption|].
      right. eapply fresh_incl; eassumption.
Qed.

(** After completion the prefix is a key, and the parent of every other
    key is the root, the prefix or a key. *)
Lemma fill_closed (fuel : nat) (files' : dict (list s3object)) :
  fill_missing_parent_directories fuel files prefix = Some files' ->
  In prefix (keys files')
  /\ (forall x, In x (keys files') -> x <> prefix ->
        PosixPath.dirname x = EmptyString \/ PosixPath.dirname x = prefix
        \/ In (PosixPath.dirname x) (keys files'))
  /\ (forall x, In x (keys files) -> In x (keys files')).
Proof.
  unfold fill_missing_parent_directories.
  destruct (collect_missing fuel files prefix (keys files) []) as [add|] eqn:Hc; [|discriminate].
  intros H. injection H as <-.
  apply collect_missing_spec in Hc. destruct Hc as (_ & Hk & Hnew).
  set (add' := if negb (dict_mem prefix files) then add ++ [prefix] else add).
  assert (Hsub : incl add add').
  { unfold add'. destruct (negb (dict_mem prefix files)); [|apply incl_refl].
    intros x Hx. apply in_or_app. left; assumption. }
  assert (Hcov : forall x, covered files prefix add x ->
            x = EmptyString \/ x = prefix
            \/ In x (keys (fold_left (fun fs k => dict_set k [] fs) add' files))).
  { intros x [H|[H|[H|H]]]; auto; right; right; apply In_keys_fold_set; auto. }
  repeat split.
  - apply In_keys_fold_set. unfold add'.
    destruct (dict_mem prefix files) eqn:Hp; simpl.
    + left. apply dict_mem_In, Hp.
    + right. apply in_or_app. right; left; reflexivity.
  - intros x Hx Hxp. apply In_keys_fold_set in Hx. destruct Hx as [Hx|Hx].
    + apply Hcov, Hk, Hx.
    + assert (Hxa : In x add).
      { unfold add' in Hx. destruct (negb (dict_mem prefix files)); [|assumption].
        apply in_app_or in Hx. destruct Hx as [Hx|[Hx|[]]]; [assumption | congruence]. }
      destruct (Hnew x Hxa) as [[]|(_ & _ & _ & Hd)]. apply Hcov, Hd.
  - intros x Hx. apply In_keys_fold_set. left; assumption.
Qed.

End Completion.

(** ** Paths *)

Lemma rsplit_sep_app (p : string) :
  p = (fst (PosixPath.rsplit_sep p) ++ snd (PosixPath.rsplit_sep p))%string.
Proof.
  induction p as [|c r IH]; simpl; [reflexivity|].
  destruct (PosixPath.rsplit_sep r) as [h t]; simpl in *.
  destruct (PosixPath.is_sep c); simpl; [now rewrite IH|].
  destruct h; simpl in *; now rewrite IH.
Qed.

Lemma rstrip_prefix (ch : ascii) (s : string) : exists x, s = (rstrip ch s ++ x)%string.
Proof.
  induction s as [|c r [x IH]]; simpl; [exists EmptyString; reflexivity|].
  destruct (rstrip ch r) as [|c' r'] eqn:E.
  - destruct (Ascii.eqb c ch).
    + exists (String c r). reflexivity.
    + exists x. simpl. now rewrite IH at 1.
  - exists x. simpl. now rewrite IH at 1.
Qed.

Lemma length_append (a b : string) :
  String.length (a ++ b)%string = String.length a + String.length b.
Proof.
  induction a as [|c a IH]; simpl; [reflexivity | now rewrite IH].
Qed.

Lemma rstrip_length (ch : ascii) (s : string) :
  String.length (rstrip ch s) <= String.length s.
Proof.
  destruct (rstrip_prefix ch s) as [x Hx]. rewrite Hx at 2.
  rewrite length_append. lia.
Qed.

Lemma rsplit_head_shrinks (p : string) :
  fst (PosixPath.rsplit_sep p) <> EmptyString ->
  String.length (rstrip slash_char (fst (PosixPath.rsplit_sep p)))
  < String.length (fst (PosixPath.rsplit_sep p)).
Proof.
  induction p as [|c r IH]; simpl; [congruence|].
  destruct (PosixPath.rsplit_sep r) as [h t]; simpl in *.
  assert (Hstep : h <> EmptyString ->
            String.length (rstrip slash_char (String c h)) < String.length (String c h)).
  { intros Hh. specialize (IH Hh). simpl.
    destruct (rstrip slash_char h); [destruct (Ascii.eqb c slash_char)|]; simpl in *; lia. }
  destruct (PosixPath.is_sep c) eqn:Hc; simpl.
  - intros _. destruct h as [|c' h'].
    + unfold PosixPath.is_sep in Hc. simpl. rewrite Hc. simpl. lia.
    + apply Hstep. discriminate.
  - destruct h as [|c' h']; simpl; [congruence|].
    intros _. apply Hstep. discriminate.
Qed.

Lemma dirname_prefix (p : string) : exists x, p = (PosixPath.dirname p ++ x)%string.
Proof.
  unfold PosixPath.dirname, PosixPath.split.
  pose proof (rsplit_sep_app p) as Hp.
  destruct (PosixPath.rsplit_sep p) as [h t]; simpl in *.
  destruct (negb (is_empty h) && negb (PosixPath.all_sep h)).
  - destruct (rstrip_prefix slash_char h) as [x Hx].
    exists (x ++ t)%string. rewrite Hp at 1. rewrite Hx at 1.
    clear. induction (rstrip slash_char h); simpl; [reflexivity | now f_equal].
  - exists t. assumption.
Qed.

Lemma dirname_length_le (p : string) :
  String.length (PosixPath.dirname p) <= String.length p.
Proof.
  destruct (dirname_prefix p) as [x Hx]. rewrite Hx at 2. rewrite length_append. lia.
Qed.

Lemma leading_sep_prefix (a x : string) :
  leading_sep (a ++ x)%string = false -> leading_sep a = false.
Proof.
  destruct a; simpl; auto.
Qed.

Lemma dirname_no_leading_sep (p : string) :
  leading_sep p = false -> leading_sep (PosixPath.dirname p) = false.
Proof.
  destruct (dirname_prefix p) as [x Hx]. rewrite Hx at 1. apply leading_sep_prefix.
Qed.

Lemma all_sep_leading (h : string) :
  h <> EmptyString -> PosixPath.all_sep h = true -> leading_sep h = true.
Proof.
  destruct h as [|c h]; simpl; [congruence|].
  intros _ H. apply andb_prop in H. tauto.
Qed.

(** Away from the root of the file system a directory name is shorter
    than the path it is taken from. *)
Lemma dirname_shrinks (p : string) :
  p <> EmptyString -> leading_sep p = false ->
  String.length (PosixPath.dirname p) < String.length p.
Proof.
  intros Hne Hlead. unfold PosixPath.dirname, PosixPath.split.
  pose proof (rsplit_sep_app p) as Hp.
  pose proof (rsplit_head_shrinks p) as Hs.
  destruct (PosixPath.rsplit_sep p) as [h t]; simpl in *.
  destruct h as [|c h'].
  - simpl. destruct p; [congruence | simpl; lia].
  - simpl negb at 1. cbv iota beta.
    assert (Hlen : String.length (String c h') <= String.length p).
    { rewrite Hp. rewrite length_append. simpl. lia. }
    destruct (PosixPath.all_sep (String c h')) eqn:Hall.
    + exfalso. apply all_sep_leading in Hall; [|discriminate].
      rewrite Hp in Hlead. simpl in Hlead. simpl in Hall. congruence.
    + simpl andb. cbv iota. specialize (Hs ltac:(discriminate)). lia.
Qed.

(** ** Termination of the completion *)

Lemma ascend_terminates (files : dict (list s3object)) (prefix : string) (fuel : nat) :
  forall dn add,
    leading_sep dn = false -> String.length dn < fuel ->
    exists add', ascend fuel files prefix dn add = Some add'.
Proof.
  induction fuel as [|fuel IH]; intros dn add Hlead Hlen; [lia|].
  simpl. destruct (is_empty dn) eqn:He; simpl; [eauto|].
  destruct (String.eqb dn prefix); simpl; [eauto|].
  apply IH.
  - apply dirname_no_leading_sep, Hlead.
  - assert (dn <> EmptyString) by (intros ->; discriminate).
    pose proof (dirname_shrinks dn H Hlead). lia.
Qed.

Lemma collect_missing_terminates (files : dict (list s3object)) (prefix : string)
  (fuel : nat) (ks : list string) :
  (forall k, In k ks -> leading_sep k = false /\ String.length k < fuel) ->
  forall add, exists add', collect_missing fuel files prefix ks add = Some add'.
Proof.
  induction ks as [|k ks IH]; intros Hks add; simpl; [eauto|].
  destruct (Hks k (or_introl eq_refl)) as [Hlead Hlen].
  destruct (ascend_terminates files prefix fuel (PosixPath.dirname k) add) as [add1 ->].
  - apply dirname_no_leading_sep, Hlead.
  - pose proof (dirname_length_le k). lia.
  - apply IH. intros k' Hk'. apply Hks. right; assumption.
Qed.

Lemma ascent_fuel_bound (files : dict (list s3object)) (k : string) :
  In k (keys files) -> String.length k < ascent_fuel files.
Proof.
  unfold ascent_fuel. induction (keys files) as [|k' ks IH]; simpl; [tauto|].
  intros [->|H]; [lia|]. specialize (IH H). lia.
Qed.

Lemma fill_terminates (files : dict (list s3object)) (prefix : string) :
  (forall k, In k (keys files) -> leading_sep k = false) ->
  exists files',
    fill_missing_parent_directories (ascent_fuel files) files prefix = Some files'.
Proof.
  intros Hk. unfold fill_missing_parent_directories.
  destruct (collect_missing_terminates files prefix (ascent_fuel files) (keys files))
    with (add := @nil string) as [add ->]; [|eauto].
  intros k Hin. split; [apply Hk, Hin | apply ascent_fuel_bound, Hin].
Qed.

(** ** The completion invariant *)

(** C2, as the program has it.  When [fill_missing_parent_directories]
    returns, the prefix is a key of the mapping and so is every proper
    ancestor of every key, taken by repeated [dirname] until the prefix or
    the empty path is reached, provided the ancestor is not empty or is
    the prefix; and it does return whenever no key starts with the
    separator. *)
Theorem completion_invariant (files : dict (list s3object)) (prefix : string) :
  (forall fuel files',
      fill_missing_parent_directories fuel files prefix = Some files' ->
      In prefix (keys files')
      /\ forall k a,
           In k (keys files') -> ancestor_upto prefix k a ->
           a <> EmptyString \/ a = prefix ->
           In a (keys files'))
  /\ ((forall k, In k (keys files) -> leading_sep k = false) ->
      exists files',
        fill_missing_parent_directories (ascent_fuel files) files prefix = Some files').
Proof.
  split; [|apply fill_terminates].
  intros fuel files' H. apply fill_closed in H. destruct H as (Hp & Hcl & _).
  split; [assumption|].
  assert (Hstep : forall x, In x (keys files') -> x <> prefix ->
            PosixPath.dirname x <> EmptyString \/ PosixPath.dirname x = prefix ->
            In (PosixPath.dirname x) (keys files')).
  { intros x Hx Hxp Hd. destruct (Hcl x Hx Hxp) as [E|[E|E]]; [|congruence|assumption].
    destruct Hd as [Hd|Hd]; congruence. }
  intros k a Hk Hanc. induction Hanc as [Hkp|a Hanc IH Ha Hap]; intros Hin.
  - apply Hstep; assumption.
  - apply Hstep; auto.
Qed.

Lemma completion_invariant_witness :
  exists files',
    fill_missing_parent_directories (ascent_fuel deep_files) deep_files EmptyString
    = Some files'
    /\ In EmptyString (keys files')
    /\ In "a/b" (keys files').
Proof.
  destruct (completion_invariant deep_files EmptyString) as [Hinv Hterm].
  destruct Hterm as [files' Hf].
  - intros k [<-|[]]. reflexivity.
  - exists files'. split; [assumption|].
    destruct (Hinv _ _ Hf) as [Hroot Hanc]. split; [assumption|].
    assert (Hk : In "a/b/c/d/e" (keys files')).
    { vm_compute in Hf. injection Hf as <-. simpl. auto. }
    apply (Hanc "a/b/c/d/e"); [assumption | | left; discriminate].
    change "a/b" with (PosixPath.dirname "a/b/c").
    apply ancestor_above; [|discriminate|discriminate].
    change "a/b/c" with (PosixPath.dirname "a/b/c/d").
    apply ancestor_above; [|discriminate|discriminate].
    change "a/b/c/d" with (PosixPath.dirname "a/b/c/d/e").
    apply ancestor_parent. discriminate.
Defined.

(** C2, as stated, fails: run on the prefix [a], the key [ab/c/d.txt] lies
    under the prefix as the bucket reads it; the ascent from [ab/c] passes
    [ab] and ends at the empty path, which is an ancestor of [ab/c] and is
    not made a key. *)
Lemma root_missing_beside_prefix :
  snd (split_records [sample_object "ab/c/d.txt"]) = sibling_files
  /\ fill_missing_parent_directories 5 sibling_files "a"
     = Some (sibling_files ++ [("ab", []); ("a", [])])
  /\ ancestor_upto "a" "ab/c" EmptyString
  /\ ~ (forall k a,
          In k (keys (sibling_files ++ [("ab", []); ("a", [])])) ->
          ancestor_upto "a" k a ->
          In a (keys (sibling_files ++ [("ab", []); ("a", [])]))).
Proof.
  assert (Hanc : ancestor_upto "a" "ab/c" EmptyString).
  { change EmptyString with (PosixPath.dirname "ab").
    apply ancestor_above; [|discriminate|discriminate].
    change "ab" with (PosixPath.dirname "ab/c").
    apply ancestor_parent. discriminate. }
  split; [reflexivity|]. split; [reflexivity|]. split; [exact Hanc|].
  intros H. specialize (H "ab/c" EmptyString (or_introl eq_refl) Hanc).
  simpl in H. destruct H as [H|[H|[H|[]]]]; discriminate H.
Qed.

(** A key at the root of the file system keeps the ascent going for ever. *)
Lemma fill_diverges_on_leading_separator (fuel : nat) :
  fill_missing_parent_directories fuel [("/", [sample_object "/f"])] EmptyString = None.
Proof.
  unfold fill_missing_parent_directories. simpl keys. unfold collect_missing.
  change (PosixPath.dirname "/") with "/".
  assert (H : forall add, ascend fuel [("/", [sample_object "/f"])] EmptyString "/" add = None).
  { induction fuel as [|fuel IH]; intros add; [reflexivity|].
    simpl. change (PosixPath.dirname "/") with "/". apply IH. }
  now rewrite H.
Qed.

(** ** Rendering twice *)

Lemma dict_mem_touch {A : Type} (k : string) (d : dict (list A)) :
  dict_mem k (defaultdict_touch k d) = true.
Proof.
  unfold defaultdict_touch. destruct (dict_mem k d) eqn:E; [assumption|].
  unfold dict_mem. now rewrite dict_get_set_same.
Qed.

Lemma defaultdict_touch_idem {A : Type} (k : string) (d : dict (list A)) :
  defaultdict_touch k (defaultdict_touch k d) = defaultdict_touch k d.
Proof.
  unfold defaultdict_touch at 1. now rewrite dict_mem_touch.
Qed.

Lemma defaultdict_get_touch {A : Type} (k : string) (d : dict (list A)) :
  defaultdict_get k (defaultdict_touch k d) = defaultdict_get k d.
Proof.
  unfold defaultdict_touch, defaultdict_get, dict_mem.
  destruct (dict_get k d) eqn:E; [now rewrite E|].
  now rewrite dict_get_set_same.
Qed.

Lemma defaultdict_touch_present {A : Type} (k : string) (d : dict (list A)) :
  In k (keys d) -> defaultdict_touch k d = d.
Proof.
  intros H. apply dict_mem_In in H. unfold defaultdict_touch. now rewrite H.
Qed.

(** C8. Rendering a directory twice gives the same text, and hence the
    same MD5 digest; the second call sees the mapping as the first call
    left it, and leaves it as it found it. *)
Theorem generate_index_for_deterministic
  (files : dict (list s3object)) (directory : string) :
  let (first, files1) := generate_index_for files directory in
  let (second, files2) := generate_index_for files1 directory in
  first = second
  /\ md5_hexdigest first = md5_hexdigest second
  /\ md5_digest_b64 first = md5_digest_b64 second
  /\ files2 = files1.
Proof.
  unfold generate_index_for.
  assert (H : index_body files directory
              = index_body (defaultdict_touch directory files) directory).
  { unfold index_body, listing_rows, index_entries.
    now rewrite defaultdict_get_touch, defaultdict_touch_idem. }
  rewrite defaultdict_touch_idem, <- H. auto.
Qed.

(** ** The order of the rows *)




Lemma insert_by_name_perm (e : entry) (l : list entry) :
  Permutation (e :: l) (insert_by_name e l).
Proof.
  induction l as [|e' r IH]; simpl; [apply Permutation_refl|].
  destruct (String.leb (entry_name e) (entry_name e')); [apply Permutation_refl|].
  eapply perm_trans; [apply perm_swap|]. now apply perm_skip.
Qed.

Lemma sorted_by_name_perm (l : list entry) : Permutation l (sorted_by_name l).
Proof.
  induction l as [|e r IH]; simpl; [constructor|].
  eapply perm_trans; [apply perm_skip, IH | apply insert_by_name_perm].
Qed.







(** ** Keys of listing objects and invalidation paths *)

Lemma append_nil_r (s : string) : (s ++ EmptyString)%string = s.
Proof.
  induction s as [|c s IH]; simpl; [reflexivity | now rewrite IH].
Qed.

Lemma append_assoc (a b c : string) : ((a ++ b) ++ c)%string = (a ++ (b ++ c))%string.
Proof.
  induction a as [|x a IH]; simpl; [reflexivity | now rewrite IH].
Qed.

Lemma append_inj_r (a b s : string) : (a ++ s)%string = (b ++ s)%string -> a = b.
Proof.
  revert b. induction a as [|x a IH]; intros [|y b] H; simpl in H.
  - reflexivity.
  - apply (f_equal String.length) in H. simpl in H. rewrite length_append in H. lia.
  - apply (f_equal String.length) in H. simpl in H. rewrite length_append in H. lia.
  - injection H as -> H. f_equal. apply IH, H.
Qed.

Lemma rsplit_sep_index (d : string) :
  PosixPath.rsplit_sep (d ++ "/index.html") = ((d ++ "/")%string, "index.html").
Proof.
  induction d as [|c d IH]; [reflexivity|].
  simpl. rewrite IH. destruct (PosixPath.is_sep c); [reflexivity|].
  destruct d; reflexivity.
Qed.

Lemma basename_index_key (d : string) : PosixPath.basename (index_key d) = "index.html".
Proof.
  unfold index_key. destruct (is_empty d); [reflexivity|].
  unfold PosixPath.basename, PosixPath.split. now rewrite rsplit_sep_index.
Qed.

Lemma index_key_inj (d d' : string) : index_key d = index_key d' -> d = d'.
Proof.
  unfold index_key. destruct d as [|c d]; destruct d' as [|c' d']; simpl; intros H.
  - reflexivity.
  - apply (f_equal String.length) in H. simpl in H. rewrite length_append in H.
    simpl in H. lia.
  - apply (f_equal String.length) in H. simpl in H. rewrite length_append in H.
    simpl in H. lia.
  - apply (append_inj_r (String c d) (String c' d') "/index.html"). exact H.
Qed.

Lemma invalidation_path_inj (d d' : string) :
  invalidation_path d = invalidation_path d' -> d = d'.
Proof.
  unfold invalidation_path. destruct d as [|c d]; destruct d' as [|c' d']; simpl; intros H.
  - reflexivity.
  - discriminate H.
  - discriminate H.
  - injection H as Hc H. subst c'. f_equal. apply (append_inj_r d d' "/"). exact H.
Qed.

Lemma In_set_add (x y : string) (s : list string) :
  In y (set_add x s) <-> y = x \/ In y s.
Proof.
  unfold set_add. destruct (mem x s) eqn:E.
  - apply mem_In in E. split; [auto | intros [->|H]; assumption].
  - rewrite in_app_iff. simpl. intuition (subst; auto).
Qed.


(** ** Runs *)

Section Runs.

Variable list_objects_v2 : request -> response.
Variable a : arguments.

(** The run once enumeration and completion have gone through. *)
Lemma main_finished (fuel : nat) (uuid4 : string)
  (indexes : dict s3object) (files files' : dict (list s3object)) :
  split_bucket_contents list_objects_v2 fuel (arg_bucket a) (operating_prefix a)
  = Ok (indexes, files) ->
  files <> [] ->
  fill_missing_parent_directories fuel files (operating_prefix a) = Some files' ->
  main list_objects_v2 fuel a uuid4
  = (invalidate a uuid4
       (snd (reconcile_pass a indexes (keys files')
               (files', delete_pass a files' (keys indexes)
                          {| calls := []; invalidations := [] |}))),
     Finished).
Proof.
  intros Hs Hne Hf. unfold main. rewrite Hs.
  destruct files as [|kv files]; [congruence|]. rewrite Hf.
  destruct (reconcile_pass _ _ (keys files') _). reflexivity.
Qed.

(** Every way a run can go. *)
Lemma main_cases (fuel : nat) (uuid4 : string) :
  (calls (fst (main list_objects_v2 fuel a uuid4)) = [] /\ invalidations (fst (main list_objects_v2 fuel a uuid4)) = [])
  \/ main list_objects_v2 fuel a uuid4
     = ({| calls := [print "No files found."; sys_exit 0]; invalidations := [] |}, Exited 0)
  \/ exists indexes files files',
       split_bucket_contents list_objects_v2 fuel (arg_bucket a) (operating_prefix a)
       = Ok (indexes, files)
       /\ files <> []
       /\ fill_missing_parent_directories fuel files (operating_prefix a) = Some files'.
Proof.
  unfold main.
  destruct (split_bucket_contents _ _ _ _) as [[indexes files]|k|] eqn:Hs; auto.
  destruct files as [|kv files]; auto.
  destruct (fill_missing_parent_directories _ _ _) as [files'|] eqn:Hf; auto.
  right; right. exists indexes, (kv :: files), files'. repeat split; [discriminate | assumption].
Qed.

Lemma invalidate_calls (uuid4 : string) (st : run_state) :
  exists extra,
    calls (invalidate a uuid4 st) = calls st ++ extra
    /\ Forall (fun e => mutated_key e = None) extra
    /\ invalidations (invalidate a uuid4 st) = invalidations st.
Proof.
  unfold invalidate.
  destruct (invalidations st) as [|p ps] eqn:Hi.
  - exists []. rewrite app_nil_r, Hi. auto.
  - destruct (arg_cfdistribution a) as [dist|].
    + destruct (is_empty dist); simpl.
      * exists []. rewrite app_nil_r, Hi. auto.
      * eexists. split; [reflexivity|]. split; [|reflexivity].
        destruct (arg_quiet a); repeat constructor.
    + exists []. rewrite app_nil_r, Hi. auto.
Qed.

(** What one round of the delete loop does. *)
Lemma delete_step_effect (files : dict (list s3object)) (st : run_state) (i : string) :
  (In i (keys files) /\ delete_step a files st i = st)
  \/ (~ In i (keys files)
      /\ calls (delete_step a files st i)
         = calls st ++ [delete_object (arg_bucket a) (index_key i);
                        print ("Index removed: " ++ index_key i)]
      /\ invalidations (delete_step a files st i)
         = set_add (invalidation_path i) (invalidations st)).
Proof.
  unfold delete_step. destruct (dict_mem i files) eqn:E; simpl.
  - left. split; [apply dict_mem_In, E | reflexivity].
  - right. split; [apply dict_mem_false, E | auto].
Qed.

(** What one round of the loop over the directories does. *)
Lemma reconcile_step_effect (indexes : dict s3object) (files : dict (list s3object))
  (st : run_state) (d : string) :
  let r := reconcile_step a indexes (files, st) d in
  fst r = defaultdict_touch d files
  /\ ((snd r = st
       /\ exists o, dict_get d indexes = Some o
                    /\ strip dquote_char (ETag o) = md5_hexdigest (index_body files d))
      \/ (exists msgs,
            calls (snd r)
            = calls st ++ msgs
              ++ [put_object (arg_bucket a) (index_key d) (index_body files d)
                    (md5_digest_b64 (index_body files d)) "text/html"]
            /\ Forall (fun e => exists m, e = print m) msgs
            /\ invalidations (snd r) = set_add (invalidation_path d) (invalidations st)
            /\ (dict_get d indexes = None
                \/ exists o, dict_get d indexes = Some o
                             /\ strip dquote_char (ETag o)
                                <> md5_hexdigest (index_body files d)))).
Proof.
  unfold reconcile_step, generate_index_for. cbv zeta.
  destruct (dict_get d indexes) as [o|] eqn:Hd.
  - destruct (String.eqb_spec (strip dquote_char (ETag o)) (md5_hexdigest (index_body files d)))
      as [E|E]; simpl.
    + split; [reflexivity|]. left. split; [reflexivity|]. eauto.
    + split; [reflexivity|]. right. eexists. split; [reflexivity|].
      split; [|split; [reflexivity | right; eauto]].
      destruct (arg_quiet a); repeat constructor. eauto.
  - simpl. split; [reflexivity|]. right. eexists. split; [reflexivity|].
    split; [|split; [reflexivity | left; reflexivity]].
    destruct (arg_quiet a); repeat constructor. eauto.
Qed.

(** The loop over the keys of the mapping leaves the mapping alone. *)
Lemma reconcile_pass_files (indexes : dict s3object) (files : dict (list s3object))
  (ks : list string) :
  incl ks (keys files) ->
  forall st, fst (reconcile_pass a indexes ks (files, st)) = files.
Proof.
  unfold reconcile_pass.
  induction ks as [|d ks IH]; intros Hin st; cbn [fold_left]; [reflexivity|].
  pose proof (reconcile_step_effect indexes files st d) as [Hf _].
  destruct (reconcile_step a indexes (files, st) d)
    as [files1 st1].
  simpl in Hf.
  rewrite defaultdict_touch_present in Hf by (apply Hin; left; reflexivity).
  subst files1. apply IH. intros x Hx. apply Hin. right; assumption.
Qed.

(** An invariant of the calls and of the invalidation set that each
    round keeps is kept by the passes. *)
Lemma delete_pass_invariant (P : run_state -> Prop) (files : dict (list s3object))
  (dirs : list string) :
  (forall st i, In i dirs -> P st -> P (delete_step a files st i)) ->
  forall st, P st -> P (delete_pass a files dirs st).
Proof.
  unfold delete_pass.
  induction dirs as [|i dirs IH]; intros Hstep st Hst; cbn [fold_left]; [assumption|].
  apply IH.
  - intros st' i' Hi'. apply Hstep. right; assumption.
  - apply Hstep; [left; reflexivity | assumption].
Qed.

Lemma reconcile_pass_invariant (P : dict (list s3object) * run_state -> Prop)
  (indexes : dict s3object) (ks : list string) :
  (forall acc d, In d ks -> P acc ->
     P (reconcile_step a indexes acc d)) ->
  forall acc, P acc -> P (reconcile_pass a indexes ks acc).
Proof.
  unfold reconcile_pass.
  induction ks as [|d ks IH]; intros Hstep acc Hacc; cbn [fold_left]; [assumption|].
  apply IH.
  - intros acc' d' Hd'. apply Hstep. right; assumption.
  - apply Hstep; [left; reflexivity | assumption].
Qed.

(** C10. Every [put_object] and every [delete_object] of a run, however
    the run ends, has a key of the form [d/index.html], or [index.html]
    for the root, whose last path component is [index.html]. *)
Theorem mutations_target_listings (fuel : nat) (uuid4 : string) :
  Forall (fun e => match mutated_key e with
                   | Some k => (exists d, k = index_key d)
                               /\ PosixPath.basename k = "index.html"
                   | None => True
                   end)
         (calls (fst (main list_objects_v2 fuel a uuid4))).
Proof.
  set (Q := fun e => match mutated_key e with
                     | Some k => (exists d, k = index_key d)
                                 /\ PosixPath.basename k = "index.html"
                     | None => True
                     end).
  destruct (main_cases fuel uuid4) as [[H _]|[H|(indexes & files & files' & Hs & Hne & Hf)]].
  - rewrite H. constructor.
  - rewrite H. repeat constructor.
  - rewrite (main_finished fuel uuid4 indexes files files' Hs Hne Hf). cbn [fst].
    destruct (invalidate_calls uuid4
                (snd (reconcile_pass a indexes (keys files')
                        (files', delete_pass a files' (keys indexes)
                                   {| calls := []; invalidations := [] |}))))
      as (extra & -> & Hextra & _).
    apply Forall_app. split.
    + apply (reconcile_pass_invariant (fun acc => Forall Q (calls (snd acc)))).
      * intros [fs st] d _ Hacc. cbn [snd] in Hacc.
        destruct (reconcile_step_effect indexes fs st d)
          as [_ [[-> _]|(msgs & -> & Hmsgs & _)]]; [assumption|].
        apply Forall_app. split; [assumption|]. apply Forall_app. split.
        -- eapply Forall_impl; [|exact Hmsgs]. intros e [m ->]. exact I.
        -- constructor; [|constructor]. unfold Q. cbn [mutated_key].
           split; [eauto | apply basename_index_key].
      * cbn [snd].
        apply (delete_pass_invariant (fun st => Forall Q (calls st))); [|constructor].
        intros st i _ Hst.
        destruct (delete_step_effect files' st i) as [[_ ->]|(_ & -> & _)]; [assumption|].
        apply Forall_app. split; [assumption|].
        constructor; [|repeat constructor]. unfold Q. cbn [mutated_key].
        split; [eauto | apply basename_index_key].
    + eapply Forall_impl; [|exact Hextra]. intros e He. unfold Q. now rewrite He.
Qed.

(** C7. When the enumeration yields no record the run prints that no
    files were found and exits with status 0; it has issued no put, no
    delete and no invalidation. *)
Theorem no_records_nothing_to_do (fuel : nat) (uuid4 : string) :
  get_complete_bucket list_objects_v2 fuel (arg_bucket a) (operating_prefix a) = Ok [] ->
  main list_objects_v2 fuel a uuid4
  = ({| calls := [print "No files found."; sys_exit 0]; invalidations := [] |}, Exited 0)
  /\ Forall (fun e => mutated_key e = None /\ is_invalidation e = false)
            (calls (fst (main list_objects_v2 fuel a uuid4))).
Proof.
  intros H.
  assert (E : main list_objects_v2 fuel a uuid4
              = ({| calls := [print "No files found."; sys_exit 0]; invalidations := [] |},
                 Exited 0)).
  { unfold main, split_bucket_contents. rewrite H. reflexivity. }
  split; [exact E|]. rewrite E. repeat constructor.
Qed.

(** A bucket that answers without ['Contents'] yields no record. *)
Lemma get_complete_bucket_no_contents (fuel : nat) (bucket prefix : string) :
  (forall r, req_ContinuationToken r = None -> Contents (list_objects_v2 r) = None) ->
  get_complete_bucket list_objects_v2 (S fuel) bucket prefix = Ok [].
Proof.
  intros H. unfold get_complete_bucket.
  destruct (negb (is_empty prefix)); simpl; rewrite H; reflexivity.
Qed.





(** C5. A directory of the completed mapping whose listing carries, between
    its quotes, the hex digest of the text just rendered is skipped: the
    round changes nothing, the run makes no put for the directory and
    does not put its path into the invalidation set. *)
Theorem digest_match_skips (fuel : nat) (uuid4 : string)
  (indexes : dict s3object) (files files' : dict (list s3object))
  (d : string) (o : s3object) :
  split_bucket_contents list_objects_v2 fuel (arg_bucket a) (operating_prefix a)
  = Ok (indexes, files) ->
  files <> [] ->
  fill_missing_parent_directories fuel files (operating_prefix a) = Some files' ->
  In d (keys files') ->
  dict_get d indexes = Some o ->
  strip dquote_char (ETag o) = md5_hexdigest (fst (generate_index_for files' d)) ->
  (forall st, reconcile_step a indexes (files', st) d
              = (files', st))
  /\ snd (main list_objects_v2 fuel a uuid4) = Finished
  /\ Forall (fun e => is_put (index_key d) e = false)
            (calls (fst (main list_objects_v2 fuel a uuid4)))
  /\ ~ In (invalidation_path d)
          (invalidations (fst (main list_objects_v2 fuel a uuid4))).
Proof.
  intros Hs Hne Hf Hd Ho Hetag. cbn [generate_index_for fst] in Hetag.
  assert (Hskip : forall st,
             reconcile_step a indexes (files', st) d
             = (files', st)).
  { intros st. pose proof (reconcile_step_effect indexes files' st d) as [H1 H2].
    destruct (reconcile_step a indexes (files', st) d)
      as [fs st1].
    cbn [fst snd] in *. rewrite defaultdict_touch_present in H1 by assumption.
    destruct H2 as [[-> _]|(msgs & _ & _ & _ & [Hn|(o' & Ho' & Hneq)])].
    - now subst.
    - congruence.
    - rewrite Ho in Ho'. injection Ho' as <-. contradiction. }
  split; [exact Hskip|].
  rewrite (main_finished fuel uuid4 indexes files files' Hs Hne Hf). cbn [fst snd].
  split; [reflexivity|].
  destruct (invalidate_calls uuid4
              (snd (reconcile_pass a indexes (keys files')
                      (files', delete_pass a files' (keys indexes)
                                 {| calls := []; invalidations := [] |}))))
    as (extra & -> & Hextra & ->).
  set (P := fun st => Forall (fun e => is_put (index_key d) e = false) (calls st)
                      /\ ~ In (invalidation_path d) (invalidations st)).
  assert (Hpass : P (snd (reconcile_pass a indexes (keys files')
                            (files', delete_pass a files' (keys indexes)
                                       {| calls := []; invalidations := [] |})))).
  { apply (reconcile_pass_invariant (fun acc => fst acc = files' /\ P (snd acc))).
    - intros [fs st] d' Hd' [Hfs [Hc Hi]]. cbn [fst snd] in *. subst fs.
      pose proof (reconcile_step_effect indexes files' st d') as [H1 H2].
      destruct (reconcile_step a indexes (files', st) d')
        as [fs st1].
      cbn [fst snd] in *. rewrite defaultdict_touch_present in H1 by assumption.
      split; [assumption|].
      destruct H2 as [[-> _]|(msgs & Hcalls & Hmsgs & Hinv & Hwhy)]; [split; assumption|].
      destruct (String.eqb_spec d' d) as [->|Hdd].
      + exfalso. destruct Hwhy as [Hn|(o' & Ho' & Hneq)]; [congruence|].
        rewrite Ho in Ho'. injection Ho' as <-. contradiction.
      + split.
        * rewrite Hcalls. apply Forall_app. split; [assumption|].
          apply Forall_app. split.
          -- eapply Forall_impl; [|exact Hmsgs]. intros e [m ->]. reflexivity.
          -- constructor; [|constructor]. cbn [is_put]. apply String.eqb_neq.
             intros E. apply index_key_inj in E. contradiction.
        * rewrite Hinv, In_set_add. intros [E|E]; [|contradiction].
          apply invalidation_path_inj in E. congruence.
    - cbn [fst snd]. split; [reflexivity|].
      apply (delete_pass_invariant P); [|split; [constructor | intros []]].
      intros st i _ [Hc Hi].
      destruct (delete_step_effect files' st i) as [[_ ->]|(Hni & Hcalls & Hinv)];
        [split; assumption|].
      split.
      + rewrite Hcalls. apply Forall_app. split; [assumption | repeat constructor].
      + rewrite Hinv, In_set_add. intros [E|E]; [|contradiction].
        apply invalidation_path_inj in E. congruence. }
  destruct Hpass as [Hc Hi]. split; [|assumption].
  apply Forall_app. split; [assumption|].
  eapply Forall_impl; [|exact Hextra]. intros e He. destruct e; simpl in *; congruence.
Qed.




End Runs.

Lemma no_records_nothing_to_do_witness :
  main (S3.list_objects_v2 1000 []) 1 (sample_arguments None) "run-1"
  = ({| calls := [print "No files found."; sys_exit 0]; invalidations := [] |}, Exited 0)
  /\ Forall (fun e => mutated_key e = None /\ is_invalidation e = false)
            (calls (fst (main (S3.list_objects_v2 1000 []) 1 (sample_arguments None) "run-1"))).
Proof.
  apply (no_records_nothing_to_do (S3.list_objects_v2 1000 []) (sample_arguments None) 1 "run-1").
  reflexivity.
Defined.

Lemma digest_match_skips_witness :
  (forall st,
      reconcile_step (sample_arguments None) (fst (split_records reconciled_bucket))
        (snd (split_records reconciled_bucket), st) EmptyString
      = (snd (split_records reconciled_bucket), st))
  /\ snd (main (S3.list_objects_v2 1000 reconciled_bucket) 10 (sample_arguments None) "run-2")
     = Finished
  /\ Forall (fun e => is_put (index_key EmptyString) e = false)
       (calls (fst (main (S3.list_objects_v2 1000 reconciled_bucket) 10
                      (sample_arguments None) "run-2")))
  /\ ~ In (invalidation_path EmptyString)
          (invalidations (fst (main (S3.list_objects_v2 1000 reconciled_bucket) 10
                                 (sample_arguments None) "run-2"))).
Proof.
  apply (digest_match_skips (S3.list_objects_v2 1000 reconciled_bucket)
           (sample_arguments None) 10 "run-2"
           (fst (split_records reconciled_bucket))
           (snd (split_records reconciled_bucket))
           (snd (split_records reconciled_bucket))
           EmptyString
           {| Key := "index.html"; LastModified := sample_time; Size := 290;
              ETag := q ++ "a1b47f6ae22fcc2e94b5ff8971f89e44" ++ q |}).
  - vm_compute. reflexivity.
  - vm_compute. discriminate.
  - vm_compute. reflexivity.
  - vm_compute. left. reflexivity.
  - vm_compute. reflexivity.
  - vm_compute. reflexivity.
Defined.



(** ** Two runs in a row *)

Lemma dict_get_In {V : Type} (k : string) (d : dict V) :
  In k (keys d) -> exists v, dict_get k d = Some v.
Proof.
  intros H. apply dict_mem_In in H. unfold dict_mem in H.
  destruct (dict_get k d) as [v|]; [eauto | discriminate].
Qed.

(** X20. A run that finds a listing with a matching tag for every
    directory of the completed mapping, and no other listing, does
    nothing: no call, no path collected. *)
Lemma reconciled_run_is_quiet (list_objects_v2 : request -> response) (a : arguments)
  (fuel : nat) (uuid4 : string)
  (indexes : dict s3object) (files files' : dict (list s3object)) :
  split_bucket_contents list_objects_v2 fuel (arg_bucket a) (operating_prefix a)
  = Ok (indexes, files) ->
  files <> [] ->
  fill_missing_parent_directories fuel files (operating_prefix a) = Some files' ->
  (forall d, In d (keys indexes) -> In d (keys files')) ->
  (forall d, In d (keys files') ->
     exists o, dict_get d indexes = Some o
               /\ strip dquote_char (ETag o) = md5_hexdigest (index_body files' d)) ->
  main list_objects_v2 fuel a uuid4 = ({| calls := []; invalidations := [] |}, Finished).
Proof.
  intros Hs Hne Hf Hold Hnew.
  rewrite (main_finished list_objects_v2 a fuel uuid4 indexes files files' Hs Hne Hf).
  set (start := {| calls := []; invalidations := [] |}).
  assert (Hdel : delete_pass a files' (keys indexes) start = start).
  { apply (delete_pass_invariant a (fun st => st = start)); [|reflexivity].
    intros st i Hi ->. unfold delete_step.
    apply Hold, dict_mem_In in Hi. now rewrite Hi. }
  rewrite Hdel.
  assert (Hrec : reconcile_pass a indexes (keys files') (files', start) = (files', start)).
  { apply (reconcile_pass_invariant a (fun acc => acc = (files', start))); [|reflexivity].
    intros acc d Hd ->. destruct (Hnew d Hd) as (o & Ho & Htag).
    unfold reconcile_step, generate_index_for.
    rewrite (defaultdict_touch_present d files' Hd), Ho, Htag, String.eqb_refl.
    reflexivity. }
  rewrite Hrec. reflexivity.
Qed.

(** C1, at a failing input.  The bucket holds [a/b/f.txt] and the prefix is
    [a/b].  The first run writes [a/b/index.html] and, above the prefix,
    [a/index.html]; the bucket is left alone; the second run, whose
    enumeration under the prefix does not reach [a/index.html], writes
    that listing again and invalidates its path. *)
Theorem second_run_rewrites_listing_above_prefix :
  let first := S3.run 1000 sample_time 10 (sample_arguments (Some "a/b")) "run-1"
                 nested_bucket in
  let second := S3.run 1000 sample_time 10 (sample_arguments (Some "a/b")) "run-2"
                  (snd first) in
  snd (fst first) = Finished
  /\ map Key (snd first) = ["a/b/f.txt"; "a/b/index.html"; "a/index.html"]
  /\ snd (fst second) = Finished
  /\ snd second = snd first
  /\ map mutated_key (calls (fst (fst second))) = [None; Some "a/index.html"; None; None]
  /\ invalidations (fst (fst second)) = ["/a/"].
Proof.
  vm_compute. repeat split; reflexivity.
Qed.

(** A listing stored under a key with a doubled separator is deleted at
    another key, so it stays, and every run deletes and invalidates
    again. *)
Lemma second_run_deletes_again :
  let first := S3.run 1000 sample_time 10 (sample_arguments None) "run-1"
                 doubled_separator_bucket in
  let second := S3.run 1000 sample_time 10 (sample_arguments None) "run-2" (snd first) in
  map Key (snd first) = ["f.txt"; "index.html"; "x//index.html"]
  /\ map mutated_key (calls (fst (fst second))) = [Some "x/index.html"; None; None; None]
  /\ invalidations (fst (fst second)) = ["/x/"].
Proof.
  vm_compute. repeat split; reflexivity.
Qed.

(** Without a prefix and with plain keys the second run is quiet. *)
Lemma second_run_quiet_without_prefix :
  S3.run 1000 sample_time 10 (sample_arguments None) "run-2" reconciled_bucket
  = (({| calls := []; invalidations := [] |}, Finished), reconciled_bucket).
Proof.
  vm_compute. reflexivity.
Qed.

(** ** Enumeration across pages *)

(** C9, at a failing input.  With pages of two records and the prefix [a],
    the request for the second page carries no prefix and the record
    [b/1], which is not under the prefix, is yielded. *)
Theorem continuation_leaves_the_prefix :
  get_complete_bucket (S3.list_objects_v2 2 paged_bucket) 5 "bucket" "a"
  = Ok paged_bucket
  /\ filter (fun o => negb (String.prefix "a" (Key o))) paged_bucket
     = [sample_object "b/1"].
Proof.
  vm_compute. split; reflexivity.
Qed.

(** On a single page the records are those under the prefix. *)
Lemma single_page_stays_under_prefix :
  get_complete_bucket (S3.list_objects_v2 1000 paged_bucket) 5 "bucket" "a"
  = Ok (filter (fun o => String.prefix "a" (Key o)) paged_bucket).
Proof.
  vm_compute. reflexivity.
Qed.

(** Every request after the first is built from the bucket name and the
    token alone: whatever the first answer, the records that follow do
    not depend on the prefix. *)
Lemma continuation_ignores_prefix (list_objects_v2 : request -> response)
  (fuel : nat) (bucket prefix prefix' : string) :
  prefix <> EmptyString -> prefix' <> EmptyString ->
  list_objects_v2 {| req_Bucket := bucket; req_Prefix := Some prefix;
                     req_ContinuationToken := None |}
  = list_objects_v2 {| req_Bucket := bucket; req_Prefix := Some prefix';
                       req_ContinuationToken := None |} ->
  get_complete_bucket list_objects_v2 fuel bucket prefix
  = get_complete_bucket list_objects_v2 fuel bucket prefix'.
Proof.
  intros Hp Hp' H. unfold get_complete_bucket.
  destruct prefix; [congruence|]. destruct prefix'; [congruence|].
  simpl. now rewrite H.
Qed.

(** ** The link to the parent directory *)

Lemma prefix_app (n post : string) : String.prefix n (n ++ post) = true.
Proof.
  induction n as [|c n IH]; simpl; [destruct post; reflexivity|].
  destruct (ascii_dec c c); [assumption | congruence].
Qed.

Lemma prefix_split (n h : string) :
  String.prefix n h = true -> exists post, h = (n ++ post)%string.
Proof.
  revert h. induction n as [|c n IH]; intros h H; [exists h; reflexivity|].
  destruct h as [|c' h]; [discriminate|]. simpl in H.
  destruct (ascii_dec c c') as [->|]; [|discriminate].
  destruct (IH h H) as [post ->]. exists post. reflexivity.
Qed.

Lemma contains_intro (n pre post : string) : contains n (pre ++ n ++ post) = true.
Proof.
  induction pre as [|c pre IH]; simpl.
  - assert (H : forall h, String.prefix n h = true -> contains n h = true).
    { intros h Hh. destruct h; cbn [contains]; now rewrite Hh. }
    apply H, prefix_app.
  - rewrite IH. apply orb_true_r.
Qed.

Lemma contains_split (n h : string) :
  contains n h = true -> exists pre post, h = (pre ++ n ++ post)%string.
Proof.
  induction h as [|c h IH]; cbn [contains]; intros H.
  - rewrite orb_false_r in H. apply prefix_split in H. destruct H as [post ->].
    exists EmptyString, post. reflexivity.
  - apply orb_prop in H. destruct H as [H|H].
    + apply prefix_split in H. destruct H as [post ->].
      exists EmptyString, post. reflexivity.
    + destruct (IH H) as (pre & post & ->). exists (String c pre), post. reflexivity.
Qed.

Lemma slash_free_app (x y : string) :
  slash_free (x ++ y) = slash_free x && slash_free y.
Proof.
  induction x as [|c x IH]; simpl; [reflexivity|].
  now rewrite IH, andb_assoc.
Qed.

Lemma ends_slash_app (b : bool) (x y : string) :
  ends_slash b (x ++ y) = ends_slash (ends_slash b x) y.
Proof.
  revert b. induction x as [|c x IH]; intros b; simpl; [reflexivity | apply IH].
Qed.

Lemma after_slash_quote_app (b : bool) (x y : string) :
  after_slash_quote b (x ++ y)
  = map (fun r => (r ++ y)%string) (after_slash_quote b x)
    ++ after_slash_quote (ends_slash b x) y.
Proof.
  revert b. induction x as [|c x IH]; intros b; simpl; [reflexivity|].
  rewrite IH, map_app, <- app_assoc. f_equal.
  destruct (b && Ascii.eqb c dquote_char); reflexivity.
Qed.

Lemma ends_slash_free (x : string) : slash_free x = true -> ends_slash false x = false.
Proof.
  assert (H : forall b, slash_free x = true -> ends_slash b x = b && is_empty x).
  { induction x as [|c x IH]; intros b Hx; simpl in *.
    - now rewrite andb_true_r.
    - apply andb_prop in Hx. destruct Hx as [Hc Hx]. rewrite IH by assumption.
      apply negb_true_iff in Hc. rewrite Hc, andb_false_r. reflexivity. }
  intros Hx. now rewrite H.
Qed.

Lemma after_slash_quote_free (x : string) :
  slash_free x = true -> after_slash_quote false x = [].
Proof.
  induction x as [|c x IH]; simpl; intros Hx; [reflexivity|].
  apply andb_prop in Hx. destruct Hx as [Hc Hx].
  apply negb_true_iff in Hc. rewrite Hc. apply IH, Hx.
Qed.

(** An occurrence of the two characters is found by the scan. *)
Lemma after_slash_quote_found (pre rest : string) (b : bool) :
  In rest (after_slash_quote b (pre ++ "/" ++ q ++ rest)).
Proof.
  revert b. induction pre as [|c pre IH]; intros b.
  - simpl. apply in_or_app. right. left. reflexivity.
  - simpl. apply in_or_app. right. apply IH.
Qed.

(** The text up to the first separator is determined. *)
Lemma first_slash_unique (u u' v v' : string) :
  slash_free u = true -> slash_free u' = true ->
  (u ++ "/" ++ v)%string = (u' ++ "/" ++ v')%string -> u = u'.
Proof.
  revert u'. induction u as [|c u IH]; intros [|c' u'] Hu Hu' H; simpl in *.
  - reflexivity.
  - injection H as <- _. discriminate Hu'.
  - injection H as -> _. discriminate Hu.
  - injection H as <- H.
    apply andb_prop in Hu. apply andb_prop in Hu'.
    f_equal. apply IH; tauto.
Qed.

Lemma slash_free_uint (u : Decimal.uint) : slash_free (NilEmpty.string_of_uint u) = true.
Proof.
  induction u; simpl; auto.
Qed.

Lemma slash_free_str_of_nat (n : nat) : slash_free (str_of_nat n) = true.
Proof. apply slash_free_uint. Qed.

Lemma slash_free_two_digits (n : nat) : slash_free (two_digits n) = true.
Proof.
  unfold two_digits. destruct (Nat.ltb n 10); simpl; apply slash_free_str_of_nat.
Qed.

Lemma slash_free_strftime (d : datetime) : slash_free (strftime d) = true.
Proof.
  unfold strftime. rewrite !slash_free_app, !slash_free_two_digits, slash_free_str_of_nat.
  destruct (dt_month d); reflexivity.
Qed.

Lemma slash_free_rsplit_tail (p : string) :
  slash_free (snd (PosixPath.rsplit_sep p)) = true.
Proof.
  induction p as [|c r IH]; simpl; [reflexivity|].
  destruct (PosixPath.rsplit_sep r) as [h t]; simpl in *.
  destruct (PosixPath.is_sep c) eqn:Hc; simpl; [assumption|].
  destruct h; simpl; [rewrite Hc|]; simpl; assumption.
Qed.

Lemma slash_free_basename (p : string) : slash_free (PosixPath.basename p) = true.
Proof.
  unfold PosixPath.basename, PosixPath.split.
  pose proof (slash_free_rsplit_tail p) as H.
  destruct (PosixPath.rsplit_sep p) as [h t]. exact H.
Qed.

Lemma scan_quiet (b b' : bool) (x y : string) :
  after_slash_quote b x = [] -> ends_slash b x = b' ->
  after_slash_quote b (x ++ y) = after_slash_quote b' y.
Proof.
  intros Hx <-. now rewrite after_slash_quote_app, Hx.
Qed.

Lemma ends_step (b b' : bool) (x y : string) :
  ends_slash b x = b' -> ends_slash b (x ++ y) = ends_slash b' y.
Proof.
  intros <-. apply ends_slash_app.
Qed.

Lemma scan_directory_name (name : string) :
  slash_free name = true ->
  after_slash_quote false (name ++ "/") = [] /\ ends_slash false (name ++ "/") = true.
Proof.
  intros Hn. rewrite after_slash_quote_app, ends_slash_app.
  rewrite (after_slash_quote_free name Hn), (ends_slash_free name Hn). split; reflexivity.
Qed.

Lemma scan_quote_after_slash (y : string) :
  after_slash_quote true (q ++ y) = y :: after_slash_quote false y.
Proof. reflexivity. Qed.

Ltac quiet_literal := erewrite scan_quiet; [| reflexivity | reflexivity].
Ltac quiet_free H :=
  erewrite scan_quiet; [| apply after_slash_quote_free, H | apply ends_slash_free, H].
Ltac ends_literal := erewrite ends_step; [| reflexivity].
Ltac ends_free H := erewrite ends_step; [| apply ends_slash_free, H].

Lemma render_row_scan (name : string) (date : option datetime) (size : option nat) :
  slash_free name = true ->
  ends_slash false (render_row (name, date, size)) = false
  /\ match size with
     | None => exists tail,
                 after_slash_quote false (render_row (name, date, size))
                 = [(">" ++ (name ++ "/") ++ tail)%string]
     | Some _ => after_slash_quote false (render_row (name, date, size)) = []
     end.
Proof.
  intros Hn. unfold render_row, display_name, entry_name, entry_size. cbn [fst snd].
  assert (Hd : slash_free match date with Some d => strftime d | None => EmptyString end = true).
  { destruct date; [apply slash_free_strftime | reflexivity]. }
  set (D := match date with Some d => strftime d | None => EmptyString end) in *.
  destruct size as [n|].
  - pose proof (slash_free_str_of_nat n) as Hs.
    rewrite append_nil_r. split.
    + ends_literal. ends_literal. ends_free Hn. ends_literal. ends_literal. ends_free Hn.
      ends_literal. ends_free Hd. ends_literal. ends_free Hs. reflexivity.
    + quiet_literal. quiet_literal. quiet_free Hn. quiet_literal. quiet_literal.
      quiet_free Hn. quiet_literal. quiet_free Hd. quiet_literal. quiet_free Hs.
      reflexivity.
  - destruct (scan_directory_name name Hn) as [Hq He]. split.
    + ends_literal. ends_literal. erewrite ends_step by exact He.
      ends_literal. ends_literal. erewrite ends_step by exact He.
      ends_literal. ends_free Hd. reflexivity.
    + quiet_literal. quiet_literal. erewrite scan_quiet; [| exact Hq | exact He].
      rewrite scan_quote_after_slash. eexists. f_equal.
      quiet_literal. erewrite scan_quiet; [| exact Hq | exact He].
      quiet_literal. quiet_free Hd. reflexivity.
Qed.

Lemma concat_cons (x : string) (xs : list string) :
  String.concat EmptyString (x :: xs) = (x ++ String.concat EmptyString xs)%string.
Proof.
  destruct xs; simpl; [now rewrite append_nil_r | reflexivity].
Qed.

Lemma rows_scan (rows : list entry) (suffix : string) :
  (forall e, In e rows -> slash_free (entry_name e) = true) ->
  ends_slash false (String.concat EmptyString (map render_row rows) ++ suffix)
  = ends_slash false suffix
  /\ forall rest,
       In rest (after_slash_quote false
                  (String.concat EmptyString (map render_row rows) ++ suffix)) ->
       In rest (after_slash_quote false suffix)
       \/ exists e tail,
            In e rows /\ entry_size e = None
            /\ rest = (">" ++ (entry_name e ++ "/") ++ tail)%string.
Proof.
  induction rows as [|e rows IH]; intros Hrows.
  - simpl. auto.
  - destruct IH as [IHe IHs]; [intros e' He'; apply Hrows; right; assumption|].
    cbn [map]. rewrite concat_cons, append_assoc.
    assert (He : slash_free (entry_name e) = true) by (apply Hrows; left; reflexivity).
    destruct e as [[name date] size]. cbn [entry_name fst] in He.
    destruct (render_row_scan name date size He) as [Hends Hscan].
    split.
    + rewrite ends_slash_app, Hends. exact IHe.
    + intros rest Hin. rewrite after_slash_quote_app, Hends in Hin.
      apply in_app_or in Hin. destruct Hin as [Hin|Hin].
      * destruct size as [n|].
        -- rewrite Hscan in Hin. destruct Hin.
        -- destruct Hscan as [tail Hscan]. rewrite Hscan in Hin.
           destruct Hin as [<-|[]]. right.
           exists (name, date, None), (tail ++ String.concat EmptyString (map render_row rows)
                                       ++ suffix)%string.
           split; [left; reflexivity|]. split; [reflexivity|].
           cbn [entry_name fst]. simpl. now rewrite append_assoc.
      * destruct (IHs rest Hin) as [H|(e' & tail & He' & Hsz & ->)]; [left; assumption|].
        right. exists e', tail. split; [right; assumption | split; [assumption | reflexivity]].
Qed.

(** The text of the root listing holds no parent row, unless a row shows
    [../] itself. *)
Lemma root_rows_without_parent_row (rows : list entry) :
  (forall e, In e rows -> slash_free (entry_name e) = true) ->
  (forall e, In e rows -> display_name e <> "../") ->
  contains parent_row
    (index_head EmptyString ++ EmptyString
     ++ String.concat EmptyString (map render_row rows) ++ index_tail) = false.
Proof.
  intros Hfree Hshow.
  destruct (contains parent_row _) eqn:Hc; [exfalso | reflexivity].
  apply contains_split in Hc. destruct Hc as (pre & post & Hbody).
  assert (Hocc : In ((">" ++ (".." ++ "/") ++ "</a></td><td></td><td></td></tr>" ++ nl)
                     ++ post)%string
                    (after_slash_quote false (pre ++ parent_row ++ post))).
  { replace (pre ++ parent_row ++ post)%string
      with ((pre ++ "<tr><td><a href=" ++ q ++ "..") ++ "/" ++ q
            ++ ((">" ++ (".." ++ "/") ++ "</a></td><td></td><td></td></tr>" ++ nl)
                ++ post))%string.
    - apply after_slash_quote_found.
    - rewrite append_assoc. reflexivity. }
  rewrite <- Hbody in Hocc. clear Hbody.
  erewrite scan_quiet in Hocc; [| reflexivity | reflexivity].
  cbn [String.append] in Hocc.
  destruct (rows_scan rows index_tail Hfree) as [_ Hrows].
  apply Hrows in Hocc. destruct Hocc as [Hocc|(e & tail & He & Hsz & Heq)].
  - vm_compute in Hocc. exact Hocc.
  - simpl in Heq. injection Heq as Heq.
    assert (Hname : ".." = entry_name e).
    { apply (first_slash_unique ".." (entry_name e)
               ("</a></td><td></td><td></td></tr>" ++ nl ++ post) tail);
        [reflexivity | apply Hfree, He |].
      rewrite append_assoc in Heq. exact Heq. }
    apply (Hshow e He). unfold display_name. rewrite Hsz, <- Hname. reflexivity.
Qed.

Lemma rstrip_empty_all_sep (h : string) :
  rstrip slash_char h = EmptyString -> PosixPath.all_sep h = true.
Proof.
  induction h as [|c h IH]; simpl; [reflexivity|].
  destruct (rstrip slash_char h) eqn:E; [|discriminate].
  unfold PosixPath.is_sep. destruct (Ascii.eqb c slash_char); [|discriminate].
  intros _. now rewrite IH.
Qed.

Lemma dirname_empty_basename (p : string) :
  PosixPath.dirname p = EmptyString -> PosixPath.basename p = p.
Proof.
  unfold PosixPath.dirname, PosixPath.basename, PosixPath.split.
  pose proof (rsplit_sep_app p) as Hp.
  destruct (PosixPath.rsplit_sep p) as [h t]. cbn [fst snd] in *.
  destruct h as [|c h]; [intros _; symmetry; exact Hp|].
  cbn [is_empty negb andb].
  destruct (PosixPath.all_sep (String c h)) eqn:Hall; cbn [negb]; [discriminate|].
  intros H. apply rstrip_empty_all_sep in H. congruence.
Qed.

Lemma In_keys_touch {A : Type} (k x : string) (d : dict (list A)) :
  In x (keys (defaultdict_touch k d)) -> x = k \/ In x (keys d).
Proof.
  unfold defaultdict_touch. destruct (dict_mem k d); [auto|].
  apply In_keys_dict_set.
Qed.

(** The rows of the root listing: names without separator, and none
    showing [../] unless the mapping has a directory of that name. *)
Lemma root_rows_plain (files : dict (list s3object)) (directory : string) (e : entry) :
  In e (listing_rows files directory) ->
  slash_free (entry_name e) = true
  /\ (display_name e = "../" -> directory = EmptyString -> In ".." (keys files)).
Proof.
  intros He. unfold listing_rows in He.
  apply (Permutation_in _ (Permutation_sym (sorted_by_name_perm _))) in He.
  unfold index_entries in He. apply in_app_or in He. destruct He as [He|He].
  - apply in_map_iff in He. destruct He as (f & <- & _).
    cbn [entry_name fst]. split; [apply slash_free_basename|].
    unfold display_name. cbn [entry_name entry_size fst snd]. rewrite append_nil_r.
    intros E. pose proof (slash_free_basename (Key f)) as H. rewrite E in H. discriminate H.
  - apply in_map_iff in He. destruct He as (dn & <- & Hdn).
    cbn [entry_name fst]. split; [apply slash_free_basename|].
    unfold display_name. cbn [entry_name entry_size fst snd].
    intros E ->. apply filter_In in Hdn. destruct Hdn as [Hin Hcond].
    apply andb_prop in Hcond. destruct Hcond as [Hne Hdir].
    apply String.eqb_eq in Hdir. apply dirname_empty_basename in Hdir.
    apply (append_inj_r _ ".." "/") in E. rewrite Hdir in E. subst dn.
    apply In_keys_touch in Hin. destruct Hin as [Hin|Hin]; [discriminate | assumption].
Qed.

(** C6, as the program has it.  A rendered listing contains the row that
    links to [../] exactly when the directory is not the empty string,
    the root of the bucket, provided the mapping has no directory named
    [..]; the operating prefix plays no part. *)
Theorem parent_link_iff_not_bucket_root (files : dict (list s3object)) (directory : string) :
  ~ In ".." (keys files) ->
  (contains parent_row (index_body files directory) = true <-> directory <> EmptyString).
Proof.
  intros Hdots. unfold index_body. split.
  - intros Hc ->. cbn [String.eqb negb] in Hc.
    rewrite root_rows_without_parent_row in Hc; [discriminate | |].
    + intros e He. apply (root_rows_plain files EmptyString e He).
    + intros e He E. apply Hdots.
      apply (root_rows_plain files EmptyString e He); [assumption | reflexivity].
  - intros Hne. apply String.eqb_neq in Hne. rewrite Hne. cbn [negb].
    apply contains_intro.
Qed.

Lemma parent_link_iff_not_bucket_root_witness :
  contains parent_row (index_body prefix_files "a") = true <-> "a" <> EmptyString.
Proof.
  apply (parent_link_iff_not_bucket_root prefix_files "a").
  intros [H|[]]. discriminate H.
Defined.

(** C6, as stated, fails: run on the prefix [a], the listing of [a], the
    root of the run, links to [../]. *)
Lemma prefix_listing_links_to_parent :
  operating_prefix (sample_arguments (Some "a/")) = "a"
  /\ fill_missing_parent_directories 5 prefix_files "a" = Some prefix_files
  /\ ~ (contains parent_row (index_body prefix_files "a") = true
        <-> "a" <> operating_prefix (sample_arguments (Some "a/"))).
Proof.
  split; [reflexivity|]. split; [reflexivity|].
  intros [H _]. apply H; reflexivity.
Qed.

(** A directory named [..] at the root of the bucket shows as the same
    row. *)
Lemma dots_directory_shows_parent_row :
  contains parent_row (index_body [("..", [sample_object "../f.txt"])] EmptyString) = true.
Proof. reflexivity. Qed.

(** ** Pages of the bucket model *)

Lemma string_ltb_irrefl (s : string) : String.ltb s s = false.
Proof.
  unfold String.ltb. pose proof (String.compare_antisym s s) as H.
  destruct (String.compare s s); simpl in H; congruence.
Qed.

Lemma string_ltb_asym (s t : string) : String.ltb s t = true -> String.ltb t s = false.
Proof.
  unfold String.ltb. rewrite (String.compare_antisym t s).
  destruct (String.compare s t); simpl; congruence.
Qed.

(** In a bucket listed in ascending order, the keys after the key of [x]
    are those listed after [x]. *)
Lemma filter_after_key (l1 l2 : list s3object) (x : s3object) :
  S3.ascending (l1 ++ x :: l2) ->
  filter (fun o => String.ltb (Key x) (Key o)) (l1 ++ x :: l2) = l2.
Proof.
  unfold S3.ascending. induction l1 as [|y l1 IH]; simpl; intros Hs.
  - inversion Hs as [|? ? _ Hall]; subst. rewrite string_ltb_irrefl.
    clear Hs. induction l2 as [|z l2 IHl]; simpl; [reflexivity|].
    inversion Hall as [|? ? Hz Hall']; subst. rewrite Hz. f_equal. apply IHl, Hall'.
  - inversion Hs as [|? ? Hs' Hall]; subst.
    assert (Hy : String.ltb (Key y) (Key x) = true).
    { rewrite Forall_forall in Hall. apply Hall, in_or_app. right; left; reflexivity. }
    rewrite (string_ltb_asym _ _ Hy). apply IH, Hs'.
Qed.

Lemma firstn_last_split {A : Type} (m : nat) (X : list A) (final : A) (r : list A) :
  List.rev (firstn m X) = final :: r ->
  X = List.rev r ++ final :: skipn m X.
Proof.
  intros H. rewrite <- (firstn_skipn m X) at 1.
  apply (f_equal (@List.rev A)) in H. rewrite rev_involutive in H. rewrite H. simpl.
  now rewrite <- app_assoc.
Qed.

Section Pages.

Variable max_keys : nat.
Variable st : S3.bucket_state.
Variable bucket : string.
Hypothesis positive : 0 < max_keys.
Hypothesis sorted : S3.ascending st.

(** From any point of the listing on, the pages add up to the rest of the
    bucket. *)
Lemma get_pages_rest (fuel : nat) : forall (pre X acc : list s3object) (r : request),
  st = pre ++ X ->
  List.length X < fuel ->
  req_Prefix r = None ->
  match req_ContinuationToken r with
  | None => pre = []
  | Some t => filter (fun o => String.ltb t (Key o)) st = X
  end ->
  get_pages (S3.list_objects_v2 max_keys st) fuel bucket
    (S3.list_objects_v2 max_keys st r) acc
  = Ok (acc ++ X).
Proof.
  induction fuel as [|fuel IH]; intros pre X acc r Hst Hlen Hp Ht; [lia|].
  assert (Hmatch : match req_ContinuationToken r with
                   | None => st
                   | Some t => filter (fun o => String.ltb t (Key o)) st
                   end = X).
  { destruct (req_ContinuationToken r); [exact Ht | subst pre; exact Hst]. }
  assert (Hresp : S3.list_objects_v2 max_keys st r
                  = match List.rev (firstn max_keys X) with
                    | [] => {| Contents := None; IsTruncated := false;
                               NextContinuationToken := None |}
                    | final :: _ =>
                        if Nat.ltb max_keys (List.length X)
                        then {| Contents := Some (firstn max_keys X); IsTruncated := true;
                                NextContinuationToken := Some (Key final) |}
                        else {| Contents := Some (firstn max_keys X); IsTruncated := false;
                                NextContinuationToken := None |}
                    end).
  { unfold S3.list_objects_v2. rewrite Hp, Hmatch. reflexivity. }
  rewrite Hresp. clear Hresp Hmatch Ht Hp r.
  destruct (List.rev (firstn max_keys X)) as [|final rest] eqn:Hrev.
  - cbn [get_pages Contents].
    assert (HX : X = []).
    { destruct X as [|x X]; [reflexivity|]. destruct max_keys; [lia|].
      simpl in Hrev. destruct (List.rev (firstn n X)); discriminate. }
    rewrite HX. now rewrite app_nil_r.
  - pose proof (firstn_last_split _ _ _ _ Hrev) as HX.
    assert (Hpage : firstn max_keys X = List.rev rest ++ [final]).
    { apply (f_equal (@List.rev s3object)) in Hrev. now rewrite rev_involutive in Hrev. }
    destruct (Nat.ltb max_keys (List.length X)) eqn:Hmore;
      cbn [get_pages Contents IsTruncated NextContinuationToken negb].
    + apply Nat.ltb_lt in Hmore.
      rewrite (IH (pre ++ List.rev rest ++ [final]) (skipn max_keys X)).
      * rewrite <- app_assoc. now rewrite firstn_skipn.
      * rewrite Hst. rewrite HX at 1. now rewrite <- !app_assoc.
      * rewrite length_skipn. lia.
      * reflexivity.
      * cbn [req_ContinuationToken]. rewrite Hst. rewrite HX at 1. rewrite app_assoc.
        apply filter_after_key. rewrite <- app_assoc, <- HX, <- Hst. exact sorted.
    + apply Nat.ltb_ge in Hmore. rewrite firstn_all2 by assumption. reflexivity.
Qed.

(** X5. On a bucket that lists its keys in ascending order and resumes
    after the token, the enumeration without a prefix yields every object
    of the bucket, once and in order, whatever the size of a page. *)
Lemma enumeration_complete_without_prefix :
  get_complete_bucket (S3.list_objects_v2 max_keys st) (S (List.length st)) bucket EmptyString
  = Ok st.
Proof.
  unfold get_complete_bucket. cbn [is_empty negb].
  apply (get_pages_rest (S (List.length st)) [] st []); [reflexivity | lia | reflexivity..].
Qed.

(** X21. With a prefix the first page holds records under the prefix only;
    when it is the only page, the enumeration yields exactly those. *)
Lemma enumeration_exact_on_one_page (prefix : string) (fuel : nat) :
  prefix <> EmptyString ->
  List.length (filter (fun o => String.prefix prefix (Key o)) st) <= max_keys ->
  get_complete_bucket (S3.list_objects_v2 max_keys st) (S fuel) bucket prefix
  = Ok (filter (fun o => String.prefix prefix (Key o)) st).
Proof.
  intros Hne Hlen. unfold get_complete_bucket.
  destruct prefix as [|c p]; [congruence|]. cbn [is_empty negb].
  unfold S3.list_objects_v2. cbn [req_ContinuationToken req_Prefix].
  set (X := filter (fun o => String.prefix (String c p) (Key o)) st) in *.
  rewrite firstn_all2 by assumption.
  destruct (List.rev X) as [|final rest] eqn:Hrev.
  - cbn [get_pages Contents].
    apply (f_equal (@List.rev s3object)) in Hrev. rewrite rev_involutive in Hrev.
    now rewrite Hrev.
  - apply Nat.ltb_ge in Hlen. rewrite Hlen. reflexivity.
Qed.

(** With a prefix and more than one page, everything listed after the
    first page is yielded, under the prefix or not. *)
Lemma enumeration_past_first_page (prefix : string) (final : s3object)
  (rest : list s3object) :
  prefix <> EmptyString ->
  List.rev (firstn max_keys (filter (fun o => String.prefix prefix (Key o)) st))
  = final :: rest ->
  max_keys < List.length (filter (fun o => String.prefix prefix (Key o)) st) ->
  get_complete_bucket (S3.list_objects_v2 max_keys st) (S (S (List.length st))) bucket prefix
  = Ok (firstn max_keys (filter (fun o => String.prefix prefix (Key o)) st)
        ++ filter (fun o => String.ltb (Key final) (Key o)) st).
Proof.
  intros Hne Hrev Hmore. unfold get_complete_bucket.
  destruct prefix as [|c p]; [congruence|]. cbn [is_empty negb].
  set (F := filter (fun o => String.prefix (String c p) (Key o)) st) in *.
  assert (Hresp : S3.list_objects_v2 max_keys st
                    {| req_Bucket := bucket; req_Prefix := Some (String c p);
                       req_ContinuationToken := None |}
                  = {| Contents := Some (firstn max_keys F); IsTruncated := true;
                       NextContinuationToken := Some (Key final) |}).
  { unfold S3.list_objects_v2. cbn [req_ContinuationToken req_Prefix]. fold F.
    rewrite Hrev. apply Nat.ltb_lt in Hmore. now rewrite Hmore. }
  rewrite Hresp. cbn [get_pages Contents IsTruncated NextContinuationToken negb app].
  assert (Hin : In final st).
  { assert (H : In final (firstn max_keys F)).
    { apply in_rev. rewrite Hrev. left; reflexivity. }
    assert (H' : In final F).
    { rewrite <- (firstn_skipn max_keys F). apply in_or_app. left; assumption. }
    unfold F in H'. apply filter_In in H'. tauto. }
  apply in_split in Hin. destruct Hin as (l1 & l2 & Hst).
  assert (Hafter : filter (fun o => String.ltb (Key final) (Key o)) st = l2).
  { rewrite Hst. apply filter_after_key. rewrite <- Hst. exact sorted. }
  rewrite Hafter.
  apply (get_pages_rest (S (List.length st)) (l1 ++ [final]) l2).
  - rewrite Hst, <- app_assoc. reflexivity.
  - rewrite Hst, length_app. simpl. lia.
  - reflexivity.
  - exact Hafter.
Qed.

End Pages.

(** * Further properties *)

(** ** The two mappings *)

Lemma split_step_cases (acc : dict s3object * dict (list s3object)) (o : s3object) :
  split_step acc o
  = if is_listing o
    then (dict_set (directory_of o) o (fst acc), snd acc)
    else (fst acc,
          dict_set (directory_of o) (defaultdict_get (directory_of o) (snd acc) ++ [o])
            (snd acc)).
Proof.
  destruct acc as [indexes files].
  unfold split_step, is_listing, directory_of, PosixPath.basename, PosixPath.dirname.
  destruct (PosixPath.split (Key o)) as [dn fn]. reflexivity.
Qed.

Lemma defaultdict_get_set (k k' : string) (v : list s3object) (d : dict (list s3object)) :
  defaultdict_get k' (dict_set k v d)
  = if String.eqb k k' then v else defaultdict_get k' d.
Proof.
  unfold defaultdict_get. destruct (String.eqb_spec k k') as [->|Hne].
  - now rewrite dict_get_set_same.
  - rewrite dict_get_set_other by congruence. reflexivity.
Qed.

Lemma split_fold_files (objs : list s3object) (dn : string) :
  forall acc,
    defaultdict_get dn (snd (fold_left split_step objs acc))
    = defaultdict_get dn (snd acc)
      ++ filter (fun o => negb (is_listing o) && String.eqb (directory_of o) dn) objs.
Proof.
  induction objs as [|o objs IH]; intros acc; cbn [fold_left filter].
  - now rewrite app_nil_r.
  - rewrite IH, split_step_cases. destruct (is_listing o); cbn [snd negb andb].
    + reflexivity.
    + rewrite defaultdict_get_set.
      destruct (String.eqb_spec (directory_of o) dn) as [->|Hne].
      * now rewrite <- app_assoc.
      * reflexivity.
Qed.

Lemma split_fold_file_keys (objs : list s3object) (dn : string) :
  forall acc,
    In dn (keys (snd (fold_left split_step objs acc)))
    <-> In dn (keys (snd acc))
        \/ exists o, In o objs /\ is_listing o = false /\ directory_of o = dn.
Proof.
  induction objs as [|o objs IH]; intros acc; cbn [fold_left].
  - split; [auto | intros [H|(o & [] & _)]; assumption].
  - rewrite IH, split_step_cases. destruct (is_listing o) eqn:Ho; cbn [snd].
    + split.
      * intros [H|(o' & Hin & Hl & Hd)]; [auto | right; exists o'; simpl; auto].
      * intros [H|(o' & [<-|Hin] & Hl & Hd)]; [auto | congruence | right; eauto].
    + rewrite In_keys_dict_set. split.
      * intros [[->|H]|(o' & Hin & Hl & Hd)];
          [right; exists o; simpl; auto | auto | right; exists o'; simpl; auto].
      * intros [H|(o' & [<-|Hin] & Hl & Hd)]; [auto | auto | right; eauto].
Qed.

(** X1. The content mapping groups the records that are not named
    [index.html] by their directory, in the order of the enumeration: the
    list under a directory is the enumeration filtered to that directory,
    and a directory is a key exactly when such a record exists. *)
Theorem split_records_files (objs : list s3object) (dn : string) :
  defaultdict_get dn (snd (split_records objs))
  = filter (fun o => negb (is_listing o) && String.eqb (directory_of o) dn) objs
  /\ (In dn (keys (snd (split_records objs)))
      <-> exists o, In o objs /\ is_listing o = false /\ directory_of o = dn).
Proof.
  unfold split_records. split.
  - now rewrite split_fold_files.
  - rewrite split_fold_file_keys. simpl. tauto.
Qed.

Lemma split_fold_indexes (objs : list s3object) (dn : string) :
  forall acc,
    dict_get dn (fst (fold_left split_step objs acc))
    = match List.rev (filter (fun o => is_listing o && String.eqb (directory_of o) dn) objs) with
      | o :: _ => Some o
      | [] => dict_get dn (fst acc)
      end.
Proof.
  induction objs as [|o objs IH]; intros acc; cbn [fold_left filter].
  - reflexivity.
  - rewrite IH, split_step_cases. destruct (is_listing o); cbn [fst andb].
    + destruct (String.eqb_spec (directory_of o) dn) as [->|Hne].
      * cbn [List.rev]. rewrite dict_get_set_same.
        destruct (List.rev (filter _ objs)); reflexivity.
      * rewrite dict_get_set_other by congruence. reflexivity.
    + reflexivity.
Qed.

(** X2. The listing index holds, for each directory, the last enumerated
    record named [index.html] in that directory, and nothing for a
    directory without one. *)
Theorem split_records_indexes (objs : list s3object) (dn : string) :
  dict_get dn (fst (split_records objs))
  = hd_error (List.rev (filter (fun o => is_listing o && String.eqb (directory_of o) dn) objs)).
Proof.
  unfold split_records. rewrite split_fold_indexes.
  destruct (List.rev _); reflexivity.
Qed.

Lemma split_records_no_files (objs : list s3object) :
  snd (split_records objs) = [] <-> forallb is_listing objs = true.
Proof.
  split.
  - intros H. apply forallb_forall. intros o Ho.
    destruct (is_listing o) eqn:Hl; [reflexivity|]. exfalso.
    assert (Hin : In (directory_of o) (keys (snd (split_records objs)))).
    { unfold split_records. apply split_fold_file_keys. right. exists o. auto. }
    rewrite H in Hin. exact Hin.
  - intros H. rewrite forallb_forall in H.
    destruct (snd (split_records objs)) as [|[k v] r] eqn:E; [reflexivity|]. exfalso.
    assert (Hin : In k (keys (snd (split_records objs)))) by (rewrite E; left; reflexivity).
    unfold split_records in Hin. apply split_fold_file_keys in Hin.
    destruct Hin as [[]|(o & Ho & Hl & _)]. rewrite (H o Ho) in Hl. discriminate.
Qed.

(** X3. A run stops at ["No files found."] exactly when every enumerated
    record is named [index.html]; no call is made then, whatever listings
    the bucket holds. *)
Theorem no_files_found_iff_listings_only (list_objects_v2 : request -> response)
  (a : arguments) (fuel : nat) (uuid4 : string) (objs : list s3object) :
  get_complete_bucket list_objects_v2 fuel (arg_bucket a) (operating_prefix a) = Ok objs ->
  (main list_objects_v2 fuel a uuid4
   = ({| calls := [print "No files found."; sys_exit 0]; invalidations := [] |}, Exited 0)
   <-> forallb is_listing objs = true).
Proof.
  intros Hg. rewrite <- split_records_no_files.
  unfold main, split_bucket_contents. rewrite Hg. cbn [bind].
  destruct (split_records objs) as [indexes files]. cbn [snd].
  destruct files as [|kv files].
  - split; reflexivity.
  - split; [|discriminate].
    destruct (fill_missing_parent_directories fuel (kv :: files) (operating_prefix a));
      [|discriminate].
    destruct (reconcile_pass _ _ _ _). discriminate.
Qed.

Lemma no_files_found_iff_listings_only_witness :
  main (S3.list_objects_v2 1000 listings_only_bucket) 10 (sample_arguments None) "run-1"
  = ({| calls := [print "No files found."; sys_exit 0]; invalidations := [] |}, Exited 0)
  <-> forallb is_listing listings_only_bucket = true.
Proof.
  apply (no_files_found_iff_listings_only (S3.list_objects_v2 1000 listings_only_bucket)
           (sample_arguments None) 10 "run-1" listings_only_bucket).
  reflexivity.
Defined.

(** ** Pages, whatever the service *)

Lemma get_complete_bucket_first (api : request -> response) (fuel : nat)
  (bucket prefix : string) :
  get_complete_bucket api fuel bucket prefix
  = get_pages api fuel bucket (api (first_request bucket prefix)) [].
Proof.
  unfold get_complete_bucket, first_request. destruct (is_empty prefix); reflexivity.
Qed.

Lemma get_pages_chain (api : request -> response) (bucket : string) (fuel : nat) :
  forall r acc objs,
    get_pages api fuel bucket r acc = Ok objs ->
    exists rest, objs = acc ++ rest /\ page_chain api bucket r rest.
Proof.
  induction fuel as [|fuel IH]; intros r acc objs H; cbn [get_pages] in H; [discriminate|].
  destruct (Contents r) as [cs|] eqn:Hc.
  - destruct (IsTruncated r) eqn:Ht; cbn [negb] in H.
    + destruct (NextContinuationToken r) as [t|] eqn:Hn; [|discriminate].
      apply IH in H. destruct H as (rest & -> & Hchain).
      exists (cs ++ rest). split; [now rewrite app_assoc|].
      eapply chain_next; eassumption.
    + injection H as <-. exists cs. split; [reflexivity|]. now apply chain_last.
  - injection H as <-. exists []. split; [now rewrite app_nil_r|]. now apply chain_no_contents.
Qed.

Lemma chain_get_pages (api : request -> response) (bucket : string)
  (r : response) (rest : list s3object) :
  page_chain api bucket r rest ->
  exists fuel0, forall fuel acc,
    fuel0 <= fuel -> get_pages api fuel bucket r acc = Ok (acc ++ rest).
Proof.
  induction 1 as [r Hc|r cs Hc Ht|r cs rest t Hc Ht Hn _ [fuel0 IH]].
  - exists 1. intros [|fuel] acc Hf; [lia|]. cbn [get_pages]. rewrite Hc.
    now rewrite app_nil_r.
  - exists 1. intros [|fuel] acc Hf; [lia|]. cbn [get_pages]. now rewrite Hc, Ht.
  - exists (S fuel0). intros [|fuel] acc Hf; [lia|]. cbn [get_pages].
    rewrite Hc, Ht, Hn. cbn [negb]. rewrite IH by lia. now rewrite app_assoc.
Qed.

(** X4. The enumeration yields the records of the pages in order: the
    answer to the first request, then the answer to each request made with
    the token of a truncated page, up to the first page that is not
    truncated or has no ['Contents'].  It yields them whenever that chain
    of pages ends, and nothing else counts as a result. *)
Theorem get_complete_bucket_follows_pages (api : request -> response)
  (bucket prefix : string) (objs : list s3object) :
  (exists fuel, get_complete_bucket api fuel bucket prefix = Ok objs)
  <-> page_chain api bucket (api (first_request bucket prefix)) objs.
Proof.
  split.
  - intros [fuel H]. rewrite get_complete_bucket_first in H.
    apply get_pages_chain in H. destruct H as (rest & -> & H). exact H.
  - intros H. apply chain_get_pages in H. destruct H as [fuel0 H].
    exists fuel0. rewrite get_complete_bucket_first. now rewrite H.
Qed.

Lemma page_chain_functional (api : request -> response) (bucket : string)
  (r : response) (l1 l2 : list s3object) :
  page_chain api bucket r l1 -> page_chain api bucket r l2 -> l1 = l2.
Proof.
  intros H1. revert l2.
  induction H1 as [r Hc|r cs Hc Ht|r cs rest t Hc Ht Hn _ IH]; intros l2 H2;
    inversion H2; subst; try congruence.
  assert (cs = cs0) by congruence. assert (t = t0) by congruence. subst.
  f_equal. now apply IH.
Qed.

(** The records do not depend on the fuel under which the enumeration
    finishes. *)
Lemma get_complete_bucket_fuel_irrelevant (api : request -> response)
  (bucket prefix : string) (fuel fuel' : nat) (objs objs' : list s3object) :
  get_complete_bucket api fuel bucket prefix = Ok objs ->
  get_complete_bucket api fuel' bucket prefix = Ok objs' ->
  objs = objs'.
Proof.
  intros H H'. rewrite get_complete_bucket_first in H, H'.
  apply get_pages_chain in H. apply get_pages_chain in H'.
  destruct H as (l & -> & Hl). destruct H' as (l' & -> & Hl').
  simpl. eapply page_chain_functional; eassumption.
Qed.

(** ** What the completion adds *)

Lemma ancestor_dirname (n : nat) (p : string) :
  ancestor n (PosixPath.dirname p) = ancestor (S n) p.
Proof.
  induction n as [|n IH]; [reflexivity|]. cbn [ancestor] in *. now rewrite IH.
Qed.

Lemma ascend_adds (files : dict (list s3object)) (prefix : string) (fuel : nat) :
  forall dn add add',
    ascend fuel files prefix dn add = Some add' ->
    exists new,
      add' = add ++ new
      /\ (NoDup add -> NoDup add')
      /\ forall x, In x new ->
           x <> EmptyString /\ x <> prefix /\ ~ In x (keys files)
           /\ exists n, x = ancestor n dn.
Proof.
  induction fuel as [|fuel IH]; intros dn add add' H; cbn [ascend] in H; [discriminate|].
  destruct (is_empty dn) eqn:Hemp; cbn [negb andb] in H.
  { injection H as <-. exists []. rewrite app_nil_r. split; [reflexivity|].
    split; [auto | intros x []]. }
  destruct (String.eqb_spec dn prefix) as [->|Hne]; cbn [negb] in H.
  { injection H as <-. exists []. rewrite app_nil_r. split; [reflexivity|].
    split; [auto | intros x []]. }
  assert (Hdn : dn <> EmptyString) by (intros ->; discriminate).
  apply IH in H. destruct H as (new & Hadd & Hnd & Hnew).
  assert (Hup : forall x, In x new ->
            x <> EmptyString /\ x <> prefix /\ ~ In x (keys files)
            /\ exists n, x = ancestor n dn).
  { intros x Hx. destruct (Hnew x Hx) as (H1 & H2 & H3 & n & H4).
    repeat split; try assumption. exists (S n). now rewrite <- ancestor_dirname. }
  destruct (dict_mem dn files) eqn:Hf; cbn [negb andb] in *.
  { exists new. auto. }
  destruct (mem dn add) eqn:Ha; cbn [negb] in *.
  { exists new. auto. }
  apply dict_mem_false in Hf. apply mem_false in Ha.
  exists (dn :: new). split; [now rewrite Hadd, <- app_assoc|]. split.
  - intros Hn. apply Hnd. apply NoDup_app; [assumption | repeat constructor; intros [] |].
    intros x Hx [<-|[]]. contradiction.
  - intros x [<-|Hx]; [|auto]. repeat split; try assumption. exists 0. reflexivity.
Qed.

Lemma collect_missing_adds (files : dict (list s3object)) (prefix : string) (fuel : nat)
  (ks : list string) :
  forall add add',
    collect_missing fuel files prefix ks add = Some add' ->
    exists new,
      add' = add ++ new
      /\ (NoDup add -> NoDup add')
      /\ forall x, In x new ->
           x <> EmptyString /\ x <> prefix /\ ~ In x (keys files)
           /\ exists k n, In k ks /\ x = ancestor (S n) k.
Proof.
  induction ks as [|k ks IH]; intros add add' H; cbn [collect_missing] in H.
  - injection H as <-. exists []. rewrite app_nil_r. split; [reflexivity|].
    split; [auto | intros x []].
  - destruct (ascend fuel files prefix (PosixPath.dirname k) add) as [add1|] eqn:Ha;
      [|discriminate].
    apply ascend_adds in Ha. destruct Ha as (new1 & -> & Hnd1 & Hnew1).
    apply IH in H. destruct H as (new2 & -> & Hnd2 & Hnew2).
    exists (new1 ++ new2). split; [now rewrite app_assoc|]. split; [auto|].
    intros x Hx. apply in_app_or in Hx. destruct Hx as [Hx|Hx].
    + destruct (Hnew1 x Hx) as (H1 & H2 & H3 & n & H4).
      repeat split; try assumption. exists k, n. split; [left; reflexivity|].
      now rewrite <- ancestor_dirname.
    + destruct (Hnew2 x Hx) as (H1 & H2 & H3 & k' & n & H4 & H5).
      repeat split; try assumption. exists k', n. split; [right; assumption | assumption].
Qed.

Lemma dict_set_absent {V : Type} (k : string) (v : V) (d : dict V) :
  ~ In k (keys d) -> dict_set k v d = d ++ [(k, v)].
Proof.
  induction d as [|[k' v'] r IH]; simpl; intros H; [reflexivity|].
  destruct (String.eqb_spec k' k) as [->|Hne]; [tauto|].
  rewrite IH by tauto. reflexivity.
Qed.

Lemma fold_set_absent {A : Type} (add : list string) :
  forall files : dict (list A),
    NoDup add -> (forall k, In k add -> ~ In k (keys files)) ->
    fold_left (fun fs k => dict_set k [] fs) add files
    = files ++ map (fun k => (k, [])) add.
Proof.
  induction add as [|k add IH]; intros files Hnd Hout; cbn [fold_left map].
  - now rewrite app_nil_r.
  - inversion Hnd as [|? ? Hk Hnd']; subst.
    rewrite dict_set_absent by (apply Hout; left; reflexivity).
    rewrite IH; [now rewrite <- app_assoc | assumption |].
    intros k' Hk' Hin. unfold keys in Hin. rewrite map_app, in_app_iff in Hin.
    destruct Hin as [Hin|[<-|[]]]; [|contradiction].
    apply (Hout k'); [right; assumption | exact Hin].
Qed.

Lemma fill_shape (files : dict (list s3object)) (prefix : string) (fuel : nat)
  (files' : dict (list s3object)) :
  fill_missing_parent_directories fuel files prefix = Some files' ->
  exists add,
    files' = files ++ map (fun k => (k, [])) add
    /\ NoDup add
    /\ forall x, In x add ->
         ~ In x (keys files)
         /\ (x = prefix
             \/ x <> EmptyString /\ exists k n, In k (keys files) /\ x = ancestor (S n) k).
Proof.
  unfold fill_missing_parent_directories.
  destruct (collect_missing fuel files prefix (keys files) []) as [add|] eqn:Hc; [|discriminate].
  intros H. injection H as <-.
  apply collect_missing_adds in Hc. destruct Hc as (new & Hadd & Hnd & Hnew).
  simpl in Hadd. subst new. specialize (Hnd (NoDup_nil _)).
  set (add' := if negb (dict_mem prefix files) then add ++ [prefix] else add).
  assert (Hnd' : NoDup add').
  { unfold add'. destruct (negb (dict_mem prefix files)); [|assumption].
    apply NoDup_app; [assumption | repeat constructor; intros [] |].
    intros x Hx [E|[]]. destruct (Hnew x Hx) as (_ & H & _). congruence. }
  assert (Hprop : forall x, In x add' ->
            ~ In x (keys files)
            /\ (x = prefix
                \/ x <> EmptyString
                   /\ exists k n, In k (keys files) /\ x = ancestor (S n) k)).
  { intros x Hx. unfold add' in Hx. destruct (dict_mem prefix files) eqn:Hp; cbn [negb] in Hx.
    - destruct (Hnew x Hx) as (H1 & _ & H3 & H4). auto.
    - apply in_app_or in Hx. destruct Hx as [Hx|[<-|[]]].
      + destruct (Hnew x Hx) as (H1 & _ & H3 & H4). auto.
      + split; [apply dict_mem_false, Hp | left; reflexivity]. }
  exists add'. split; [|split; assumption].
  apply fold_set_absent; [assumption|]. intros k Hk. apply Hprop, Hk.
Qed.

Lemma dict_get_app_left {V : Type} (k : string) (v : V) (d d' : dict V) :
  dict_get k d = Some v -> dict_get k (d ++ d') = Some v.
Proof.
  induction d as [|[k' v'] r IH]; simpl; [discriminate|].
  destruct (String.eqb k' k); auto.
Qed.

(** X6. The completion leaves what it finds alone: the mapping it returns
    is the mapping it was given, entries and order unchanged, followed by
    the new directories, each once and each with an empty list. *)
Theorem fill_keeps_entries (files : dict (list s3object)) (prefix : string) (fuel : nat)
  (files' : dict (list s3object)) :
  fill_missing_parent_directories fuel files prefix = Some files' ->
  (exists add,
      files' = files ++ map (fun k => (k, [])) add
      /\ NoDup add
      /\ forall k, In k add -> ~ In k (keys files))
  /\ forall k v, dict_get k files = Some v -> dict_get k files' = Some v.
Proof.
  intros H. apply fill_shape in H. destruct H as (add & -> & Hnd & Hadd). split.
  - exists add. split; [reflexivity|]. split; [assumption|]. intros k Hk. apply Hadd, Hk.
  - intros k v Hk. now apply dict_get_app_left.
Qed.

(** X7. The completion invents no directory: a key of the returned
    mapping is a key it was given, or the prefix, or a non-empty proper
    ancestor of a key it was given. *)
Theorem fill_adds_only_ancestors (files : dict (list s3object)) (prefix : string)
  (fuel : nat) (files' : dict (list s3object)) (x : string) :
  fill_missing_parent_directories fuel files prefix = Some files' ->
  In x (keys files') ->
  In x (keys files)
  \/ x = prefix
  \/ x <> EmptyString /\ exists k n, In k (keys files) /\ x = ancestor (S n) k.
Proof.
  intros H Hx. apply fill_shape in H. destruct H as (add & -> & _ & Hadd).
  unfold keys in Hx. rewrite map_app, in_app_iff, map_map in Hx. cbn [fst] in Hx.
  rewrite map_id in Hx. destruct Hx as [Hx|Hx]; [left; exact Hx|].
  right. apply Hadd, Hx.
Qed.

Lemma fill_keeps_entries_witness :
  (exists add,
      [(EmptyString, [sample_object "f.txt"]); ("a/b/c/d/e", [sample_object "a/b/c/d/e/f.txt"])]
      ++ map (fun k => (k, [])) ["a/b/c/d"; "a/b/c"; "a/b"; "a"]
      = [(EmptyString, [sample_object "f.txt"]);
         ("a/b/c/d/e", [sample_object "a/b/c/d/e/f.txt"])]
        ++ map (fun k => (k, [])) add
      /\ NoDup add
      /\ forall k, In k add ->
           ~ In k (keys [(EmptyString, [sample_object "f.txt"]);
                         ("a/b/c/d/e", [sample_object "a/b/c/d/e/f.txt"])]))
  /\ forall k v,
       dict_get k [(EmptyString, [sample_object "f.txt"]);
                   ("a/b/c/d/e", [sample_object "a/b/c/d/e/f.txt"])] = Some v ->
       dict_get k ([(EmptyString, [sample_object "f.txt"]);
                    ("a/b/c/d/e", [sample_object "a/b/c/d/e/f.txt"])]
                   ++ map (fun k => (k, [])) ["a/b/c/d"; "a/b/c"; "a/b"; "a"]) = Some v.
Proof.
  apply (fill_keeps_entries _ EmptyString 12). reflexivity.
Defined.

Lemma fill_adds_only_ancestors_witness :
  In "a/b" (keys deep_files)
  \/ "a/b" = EmptyString
  \/ "a/b" <> EmptyString /\ exists k n, In k (keys deep_files) /\ "a/b" = ancestor (S n) k.
Proof.
  apply (fill_adds_only_ancestors deep_files EmptyString 12
           (deep_files ++ map (fun k => (k, [])) ["a/b/c/d"; "a/b/c"; "a/b"; "a"; EmptyString])).
  - reflexivity.
  - simpl. tauto.
Defined.

(** ** Keys at the root of the file system *)

Lemma rsplit_head_leading (p : string) :
  leading_sep p = true -> leading_sep (fst (PosixPath.rsplit_sep p)) = true.
Proof.
  destruct p as [|c r]; simpl; [discriminate|].
  intros Hc. destruct (PosixPath.rsplit_sep r) as [h t]. rewrite Hc. simpl. exact Hc.
Qed.

Lemma rstrip_leading (h : string) :
  PosixPath.all_sep h = false -> leading_sep h = true ->
  leading_sep (rstrip slash_char h) = true.
Proof.
  intros Hall Hlead.
  destruct (rstrip slash_char h) as [|c r] eqn:E.
  - apply rstrip_empty_all_sep in E. congruence.
  - destruct (rstrip_prefix slash_char h) as [x Hx]. rewrite E in Hx.
    rewrite Hx in Hlead. exact Hlead.
Qed.

Lemma dirname_leading_sep (p : string) :
  leading_sep p = true -> leading_sep (PosixPath.dirname p) = true.
Proof.
  intros Hp. unfold PosixPath.dirname, PosixPath.split.
  pose proof (rsplit_head_leading p Hp) as Hh.
  destruct (PosixPath.rsplit_sep p) as [h t]. cbn [fst] in *.
  destruct h as [|c h]; [discriminate|]. cbn [is_empty negb andb].
  destruct (PosixPath.all_sep (String c h)) eqn:Hall; cbn [negb]; [exact Hh|].
  now apply rstrip_leading.
Qed.

Lemma ascend_diverges (files : dict (list s3object)) (prefix : string) (fuel : nat) :
  leading_sep prefix = false ->
  forall dn add, leading_sep dn = true -> ascend fuel files prefix dn add = None.
Proof.
  intros Hp. induction fuel as [|fuel IH]; intros dn add Hdn; [reflexivity|].
  cbn [ascend].
  assert (Hne : is_empty dn = false) by (destruct dn; [discriminate | reflexivity]).
  assert (Hpre : String.eqb dn prefix = false).
  { apply String.eqb_neq. intros ->. congruence. }
  rewrite Hne, Hpre. cbn [negb andb]. apply IH, dirname_leading_sep, Hdn.
Qed.

Lemma collect_missing_diverges (files : dict (list s3object)) (prefix : string)
  (fuel : nat) (ks : list string) (k : string) :
  leading_sep prefix = false -> In k ks -> leading_sep k = true ->
  forall add, collect_missing fuel files prefix ks add = None.
Proof.
  intros Hp. induction ks as [|k' ks IH]; intros Hin Hk add; [destruct Hin|].
  cbn [collect_missing]. destruct Hin as [->|Hin].
  - rewrite ascend_diverges; [reflexivity | assumption | apply dirname_leading_sep, Hk].
  - destruct (ascend fuel files prefix (PosixPath.dirname k') add); [|reflexivity].
    now apply IH.
Qed.

(** X8. A directory that starts with the separator keeps the completion
    from ever returning, unless the prefix starts with it too: each
    ascent from it stays at the root of the file system.  A run on such a
    bucket makes no call. *)
Theorem leading_separator_diverges (list_objects_v2 : request -> response)
  (a : arguments) (uuid4 : string) (files : dict (list s3object)) (k : string) :
  In k (keys files) -> leading_sep k = true ->
  (forall prefix fuel,
      leading_sep prefix = false ->
      fill_missing_parent_directories fuel files prefix = None)
  /\ (forall fuel indexes,
        leading_sep (operating_prefix a) = false ->
        split_bucket_contents list_objects_v2 fuel (arg_bucket a) (operating_prefix a)
        = Ok (indexes, files) ->
        main list_objects_v2 fuel a uuid4
        = ({| calls := []; invalidations := [] |}, Diverged)).
Proof.
  intros Hin Hk.
  assert (Hfill : forall prefix fuel,
             leading_sep prefix = false ->
             fill_missing_parent_directories fuel files prefix = None).
  { intros prefix fuel Hp. unfold fill_missing_parent_directories.
    now rewrite (collect_missing_diverges files prefix fuel (keys files) k). }
  split; [exact Hfill|].
  intros fuel indexes Hp Hs. unfold main. rewrite Hs.
  destruct files as [|kv files]; [destruct Hin|]. now rewrite Hfill.
Qed.

Lemma leading_separator_diverges_witness :
  (forall prefix fuel,
      leading_sep prefix = false ->
      fill_missing_parent_directories fuel [("/", [sample_object "/f"])] prefix = None)
  /\ (forall fuel indexes,
        leading_sep (operating_prefix (sample_arguments None)) = false ->
        split_bucket_contents (S3.list_objects_v2 1000 [sample_object "/f"]) fuel
          (arg_bucket (sample_arguments None)) (operating_prefix (sample_arguments None))
        = Ok (indexes, [("/", [sample_object "/f"])]) ->
        main (S3.list_objects_v2 1000 [sample_object "/f"]) fuel (sample_arguments None) "run-1"
        = ({| calls := []; invalidations := [] |}, Diverged)).
Proof.
  apply (leading_separator_diverges (S3.list_objects_v2 1000 [sample_object "/f"])
           (sample_arguments None) "run-1" [("/", [sample_object "/f"])] "/").
  - left. reflexivity.
  - reflexivity.
Defined.

(** ** From a directory to the key of its listing and back *)

Lemma rstrip_snoc (ch : ascii) (s : string) :
  rstrip ch (s ++ String ch EmptyString) = rstrip ch s.
Proof.
  induction s as [|c s IH]; simpl.
  - now rewrite Ascii.eqb_refl.
  - now rewrite IH.
Qed.

Lemma rstrip_idem (ch : ascii) (s : string) : rstrip ch (rstrip ch s) = rstrip ch s.
Proof.
  induction s as [|c s IH]; simpl; [reflexivity|].
  destruct (rstrip ch s) as [|c' r] eqn:E.
  - destruct (Ascii.eqb c ch) eqn:Hc; simpl; [reflexivity | now rewrite Hc].
  - simpl in *. rewrite IH. reflexivity.
Qed.

Lemma all_sep_rstrip (s : string) : PosixPath.all_sep s = true -> rstrip slash_char s = EmptyString.
Proof.
  induction s as [|c s IH]; simpl; [reflexivity|].
  intros H. apply andb_prop in H. destruct H as [Hc Hs]. rewrite (IH Hs).
  unfold PosixPath.is_sep in Hc. now rewrite Hc.
Qed.

Lemma all_sep_snoc (s : string) :
  PosixPath.all_sep (s ++ "/") = PosixPath.all_sep s.
Proof.
  induction s as [|c s IH]; simpl; [reflexivity | now rewrite IH].
Qed.

Lemma rstrip_dirname (p : string) :
  leading_sep p = false ->
  rstrip slash_char (PosixPath.dirname p) = PosixPath.dirname p.
Proof.
  intros Hp. unfold PosixPath.dirname, PosixPath.split.
  pose proof (rsplit_sep_app p) as Happ.
  destruct (PosixPath.rsplit_sep p) as [h t]. cbn [fst snd] in *.
  destruct h as [|c h]; [reflexivity|]. cbn [is_empty negb andb].
  destruct (PosixPath.all_sep (String c h)) eqn:Hall; cbn [negb].
  - exfalso. apply all_sep_leading in Hall; [|discriminate].
    rewrite Happ in Hp. simpl in Hp, Hall. congruence.
  - apply rstrip_idem.
Qed.

Lemma ends_slash_nonempty (b b' : bool) (s : string) :
  s <> EmptyString -> ends_slash b s = ends_slash b' s.
Proof.
  destruct s; [congruence | reflexivity].
Qed.

Lemma rstrip_fixed (s : string) :
  rstrip slash_char s = s <-> ends_slash false s = false.
Proof.
  induction s as [|c s IH]; [simpl; tauto|].
  cbn [rstrip ends_slash]. destruct s as [|c' s'].
  - simpl. unfold PosixPath.is_sep. destruct (Ascii.eqb c slash_char); split; congruence.
  - rewrite (ends_slash_nonempty _ false) by discriminate. rewrite <- IH.
    destruct (rstrip slash_char (String c' s')) as [|c'' r] eqn:E.
    + split; [destruct (Ascii.eqb c slash_char); intros H; inversion H | discriminate].
    + split; [intros H; injection H as -> ->; reflexivity | intros ->; reflexivity].
Qed.

(** X9. The key a listing is written under leads back to its directory:
    for a directory that does not end with the separator, splitting
    [d/index.html] (or [index.html] for the empty directory) gives [d] and
    [index.html], so an object with that key is filed as the listing of
    [d]. *)
Theorem index_key_round_trip (d : string) (o : s3object) :
  ends_slash false d = false ->
  PosixPath.split (index_key d) = (d, "index.html")
  /\ (Key o = index_key d -> split_records [o] = ([(d, o)], [])).
Proof.
  intros Hd. apply rstrip_fixed in Hd.
  assert (Hsplit : PosixPath.split (index_key d) = (d, "index.html")).
  { unfold index_key. destruct d as [|c d]; [reflexivity|]. cbn [is_empty].
    unfold PosixPath.split. rewrite rsplit_sep_index.
    assert (Hall : PosixPath.all_sep (String c d ++ "/") = false).
    { rewrite all_sep_snoc. destruct (PosixPath.all_sep (String c d)) eqn:E; [|reflexivity].
      apply all_sep_rstrip in E. rewrite E in Hd. discriminate. }
    rewrite Hall. cbn [String.append is_empty negb andb].
    change (String c (d ++ "/"))%string with (String c d ++ String slash_char EmptyString)%string.
    now rewrite rstrip_snoc, Hd. }
  split; [exact Hsplit|].
  intros Hk. unfold split_records. cbn [fold_left]. unfold split_step.
  rewrite Hk, Hsplit. reflexivity.
Qed.

Lemma index_key_round_trip_witness :
  PosixPath.split (index_key "photos/2019") = ("photos/2019", "index.html")
  /\ (Key (sample_object "photos/2019/index.html") = index_key "photos/2019" ->
      split_records [sample_object "photos/2019/index.html"]
      = ([("photos/2019", sample_object "photos/2019/index.html")], [])).
Proof.
  apply (index_key_round_trip "photos/2019" (sample_object "photos/2019/index.html")).
  reflexivity.
Defined.

(** X10. No directory the program works on ends with the separator,
    keys at the root of the file system apart: not the operating prefix,
    not the directory of a key, not a directory the completion adds. *)
Theorem directories_have_no_trailing_separator :
  (forall a, ends_slash false (operating_prefix a) = false)
  /\ (forall p, leading_sep p = false -> ends_slash false (PosixPath.dirname p) = false)
  /\ (forall p n, leading_sep p = false -> ends_slash false (ancestor (S n) p) = false).
Proof.
  split; [|split].
  - intros a. apply rstrip_fixed. unfold operating_prefix.
    destruct (arg_prefix a) as [p|]; [|reflexivity].
    destruct (is_empty p); [reflexivity | apply rstrip_idem].
  - intros p Hp. apply rstrip_fixed. now apply rstrip_dirname.
  - intros p n Hp. cbn [ancestor]. apply rstrip_fixed. apply rstrip_dirname.
    induction n as [|n IH]; [exact Hp|]. cbn [ancestor]. now apply dirname_no_leading_sep.
Qed.

(** ** Entity tags *)

Lemma rstrip_quote_free (s : string) : quote_free s = true -> rstrip dquote_char s = s.
Proof.
  induction s as [|c s IH]; simpl; [reflexivity|].
  intros H. apply andb_prop in H. destruct H as [Hc Hs]. rewrite (IH Hs).
  apply negb_true_iff in Hc. rewrite Hc. destruct s; reflexivity.
Qed.

Lemma strip_quoted (s : string) :
  quote_free s = true -> strip dquote_char (q ++ s ++ q) = s.
Proof.
  intros Hs. unfold strip, q. cbn [String.append lstrip]. rewrite Ascii.eqb_refl.
  destruct s as [|c s].
  - reflexivity.
  - cbn [String.append lstrip]. pose proof Hs as Hs'. cbn [quote_free] in Hs'.
    apply andb_prop in Hs'. destruct Hs' as [Hc _]. apply negb_true_iff in Hc. rewrite Hc.
    change (String c (s ++ String dquote_char EmptyString))%string
      with (String c s ++ String dquote_char EmptyString)%string.
    rewrite rstrip_snoc. now apply rstrip_quote_free.
Qed.

Lemma hex_digit_not_quote (n : N) : Ascii.eqb (hex_digit n) dquote_char = false.
Proof.
  unfold hex_digit. generalize (N.to_nat n). intros k.
  do 16 (destruct k as [|k]; [reflexivity|]). destruct k; reflexivity.
Qed.

Lemma quote_free_hex (bs : list N) : quote_free (hex_of_bytes bs) = true.
Proof.
  unfold hex_of_bytes. induction bs as [|b bs IH]; [reflexivity|].
  cbn [flat_map List.app string_of_list_ascii quote_free].
  now rewrite !hex_digit_not_quote, IH.
Qed.

(** X11. The comparison with the stored tag undoes the quoting: stripping
    the quotes from a quoted hex digest gives the digest back, so a
    listing stored with the tag of body [b] compares equal to a freshly
    rendered text exactly when their digests are equal. *)
Theorem quoted_digest_round_trip (b body : string) :
  strip dquote_char (q ++ md5_hexdigest b ++ q) = md5_hexdigest b
  /\ (negb (String.eqb (strip dquote_char (q ++ md5_hexdigest b ++ q)) (md5_hexdigest body))
      = false
      <-> md5_hexdigest b = md5_hexdigest body).
Proof.
  assert (H : strip dquote_char (q ++ md5_hexdigest b ++ q) = md5_hexdigest b).
  { apply strip_quoted. apply quote_free_hex. }
  split; [exact H|]. rewrite H, negb_false_iff. apply String.eqb_eq.
Qed.

(** ** What a run writes and what it invalidates *)

Section Mutations.

Variable list_objects_v2 : request -> response.
Variable a : arguments.

(** The calls of the two passes: deletes and puts of listing keys in the
    bucket of the run, puts carrying the rendering of their directory and
    its digest; and the paths collected are those of the directories
    touched. *)
Lemma passes_invariant (indexes : dict s3object) (files' : dict (list s3object))
  (P : run_state -> Prop) :
  P {| calls := []; invalidations := [] |} ->
  (forall st i, P st -> In i (keys indexes) -> ~ In i (keys files') ->
     P {| calls := calls st ++ [delete_object (arg_bucket a) (index_key i);
                                print ("Index removed: " ++ index_key i)];
          invalidations := set_add (invalidation_path i) (invalidations st) |}) ->
  (forall st d msgs, P st -> In d (keys files') ->
     Forall (fun e => exists m, e = print m) msgs ->
     (dict_get d indexes = None
      \/ exists o, dict_get d indexes = Some o
                   /\ strip dquote_char (ETag o) <> md5_hexdigest (index_body files' d)) ->
     P {| calls := calls st ++ msgs
                   ++ [put_object (arg_bucket a) (index_key d) (index_body files' d)
                         (md5_digest_b64 (index_body files' d)) "text/html"];
          invalidations := set_add (invalidation_path d) (invalidations st) |}) ->
  P (snd (reconcile_pass a indexes (keys files')
            (files', delete_pass a files' (keys indexes)
                       {| calls := []; invalidations := [] |}))).
Proof.
  intros Hstart Hdel Hput.
  apply (reconcile_pass_invariant a (fun acc => fst acc = files' /\ P (snd acc))).
  - intros [fs st] d Hd [Hfs HP]. cbn [fst snd] in *. subst fs.
    pose proof (reconcile_step_effect a indexes files' st d) as [H1 H2].
    destruct (reconcile_step a indexes (files', st) d) as [fs st1]. cbn [fst snd] in *.
    rewrite defaultdict_touch_present in H1 by assumption. split; [assumption|].
    destruct H2 as [[-> _]|(msgs & Hcalls & Hmsgs & Hinv & Hwhy)]; [assumption|].
    destruct st1 as [c1 i1]. cbn [calls invalidations] in *. subst c1 i1.
    now apply Hput.
  - cbn [fst snd]. split; [reflexivity|].
    apply (delete_pass_invariant a P); [|assumption].
    intros st i Hi HP.
    destruct (delete_step_effect a files' st i) as [[_ ->]|(Hni & Hcalls & Hinv)];
      [assumption|].
    destruct (delete_step a files' st i) as [c1 i1]. cbn [calls invalidations] in *.
    subst c1 i1. now apply Hdel.
Qed.

(** X12. On a run that gets through enumeration and completion, every put
    is the creation or the update of the listing of a directory of the
    completed mapping: it goes to the bucket of the run under the key of
    that directory, with the text rendered for it, the base64 MD5 of that
    text and the type [text/html], and the directory had no listing or one
    with another tag.  Every delete removes the listing of a directory
    that has a listing and is not in the completed mapping. *)
Theorem puts_create_or_update (fuel : nat) (uuid4 : string)
  (indexes : dict s3object) (files files' : dict (list s3object)) :
  split_bucket_contents list_objects_v2 fuel (arg_bucket a) (operating_prefix a)
  = Ok (indexes, files) ->
  files <> [] ->
  fill_missing_parent_directories fuel files (operating_prefix a) = Some files' ->
  Forall
    (fun e =>
       match e with
       | put_object b k body digest type =>
           b = arg_bucket a /\ type = "text/html" /\ digest = md5_digest_b64 body
           /\ exists d,
                In d (keys files') /\ k = index_key d /\ body = index_body files' d
                /\ (dict_get d indexes = None
                    \/ exists o, dict_get d indexes = Some o
                                 /\ strip dquote_char (ETag o) <> md5_hexdigest body)
       | delete_object b k =>
           b = arg_bucket a
           /\ exists i, In i (keys indexes) /\ ~ In i (keys files') /\ k = index_key i
       | _ => True
       end)
    (calls (fst (main list_objects_v2 fuel a uuid4))).
Proof.
  intros Hs Hne Hf.
  rewrite (main_finished list_objects_v2 a fuel uuid4 indexes files files' Hs Hne Hf).
  cbn [fst].
  destruct (invalidate_calls a uuid4
              (snd (reconcile_pass a indexes (keys files')
                      (files', delete_pass a files' (keys indexes)
                                 {| calls := []; invalidations := [] |}))))
    as (extra & -> & Hextra & _).
  apply Forall_app. split.
  - apply (passes_invariant indexes files' (fun st => Forall _ (calls st))).
    + constructor.
    + intros st i HP Hi Hni. cbn [calls]. apply Forall_app. split; [assumption|].
      constructor; [|repeat constructor]. split; [reflexivity | eauto].
    + intros st d msgs HP Hd Hmsgs Hwhy. cbn [calls].
      apply Forall_app. split; [assumption|]. apply Forall_app. split.
      * eapply Forall_impl; [|exact Hmsgs]. intros e [m ->]. exact I.
      * constructor; [|constructor]. repeat split. exists d. auto.
  - eapply Forall_impl; [|exact Hextra]. intros e He. destruct e; simpl in He; try exact I;
      discriminate.
Qed.

(** X13. The invalidation set of a run, however it ends, holds exactly
    the paths of the directories whose listing the run has put or
    deleted. *)
Theorem invalidations_match_mutations (fuel : nat) (uuid4 : string) (p : string) :
  In p (invalidations (fst (main list_objects_v2 fuel a uuid4)))
  <-> exists d e,
        p = invalidation_path d
        /\ In e (calls (fst (main list_objects_v2 fuel a uuid4)))
        /\ mutated_key e = Some (index_key d).
Proof.
  destruct (main_cases list_objects_v2 a fuel uuid4)
    as [[Hc Hi]|[H|(indexes & files & files' & Hs & Hne & Hf)]].
  - rewrite Hc, Hi. split; [intros [] | intros (d & e & _ & [] & _)].
  - rewrite H. cbn [fst calls invalidations]. split; [intros []|].
    intros (d & e & _ & [<-|[<-|[]]] & He); discriminate He.
  - rewrite (main_finished list_objects_v2 a fuel uuid4 indexes files files' Hs Hne Hf).
    cbn [fst].
    destruct (invalidate_calls a uuid4
                (snd (reconcile_pass a indexes (keys files')
                        (files', delete_pass a files' (keys indexes)
                                   {| calls := []; invalidations := [] |}))))
      as (extra & -> & Hextra & ->).
    assert (HP : forall q,
               In q (invalidations
                       (snd (reconcile_pass a indexes (keys files')
                               (files', delete_pass a files' (keys indexes)
                                          {| calls := []; invalidations := [] |}))))
               <-> exists d e,
                     q = invalidation_path d
                     /\ In e (calls
                                (snd (reconcile_pass a indexes (keys files')
                                        (files', delete_pass a files' (keys indexes)
                                                   {| calls := []; invalidations := [] |}))))
                     /\ mutated_key e = Some (index_key d)).
    { apply (passes_invariant indexes files'
               (fun st => forall q,
                    In q (invalidations st)
                    <-> exists d e, q = invalidation_path d /\ In e (calls st)
                                    /\ mutated_key e = Some (index_key d))).
      - intros q. cbn. split; [intros [] | intros (d & e & _ & [] & _)].
      - intros st i HP _ _ q. cbn [calls invalidations]. rewrite In_set_add, HP. split.
        + intros [->|(d & e & Hq & He & Hk)].
          * exists i, (delete_object (arg_bucket a) (index_key i)).
            split; [reflexivity|]. split; [|reflexivity].
            apply in_or_app. right. left. reflexivity.
          * exists d, e. split; [assumption|]. split; [|assumption].
            apply in_or_app. left. assumption.
        + intros (d & e & Hq & He & Hk). apply in_app_or in He.
          destruct He as [He|[<-|[<-|[]]]].
          * right. eauto.
          * left. cbn in Hk. injection Hk as Hk. apply index_key_inj in Hk. congruence.
          * discriminate Hk.
      - intros st d msgs HP _ Hmsgs _ q. cbn [calls invalidations].
        rewrite In_set_add, HP. split.
        + intros [->|(d' & e & Hq & He & Hk)].
          * exists d, (put_object (arg_bucket a) (index_key d) (index_body files' d)
                         (md5_digest_b64 (index_body files' d)) "text/html").
            split; [reflexivity|]. split; [|reflexivity].
            apply in_or_app. right. apply in_or_app. right. left. reflexivity.
          * exists d', e. split; [assumption|]. split; [|assumption].
            apply in_or_app. left. assumption.
        + intros (d' & e & Hq & He & Hk). apply in_app_or in He.
          destruct He as [He|He]; [right; eauto|].
          apply in_app_or in He. destruct He as [He|[<-|[]]].
          * rewrite Forall_forall in Hmsgs. destruct (Hmsgs e He) as [m ->]. discriminate Hk.
          * left. cbn in Hk. injection Hk as Hk. apply index_key_inj in Hk. congruence. }
    rewrite HP. split.
    + intros (d & e & Hq & He & Hk). exists d, e. split; [assumption|].
      split; [apply in_or_app; left; assumption | assumption].
    + intros (d & e & Hq & He & Hk). exists d, e. split; [assumption|].
      split; [|assumption]. apply in_app_or in He. destruct He as [He|He]; [assumption|].
      rewrite Forall_forall in Hextra. rewrite (Hextra e He) in Hk. discriminate Hk.
Qed.




End Mutations.

(** ** The quiet flag *)

Lemma filter_loud_app (l1 l2 : list event) :
  filter (fun e => negb (is_print e)) (l1 ++ l2)
  = filter (fun e => negb (is_print e)) l1 ++ filter (fun e => negb (is_print e)) l2.
Proof. apply filter_app. Qed.

Lemma reconcile_step_quiet (a : arguments) (b : bool) (indexes : dict s3object)
  (files : dict (list s3object)) (st st' : run_state) (d : string) :
  invalidations st = invalidations st' ->
  filter (fun e => negb (is_print e)) (calls st)
  = filter (fun e => negb (is_print e)) (calls st') ->
  let r := reconcile_step a indexes (files, st) d in
  let r' := reconcile_step (with_quiet b a) indexes (files, st') d in
  fst r = fst r'
  /\ invalidations (snd r) = invalidations (snd r')
  /\ filter (fun e => negb (is_print e)) (calls (snd r))
     = filter (fun e => negb (is_print e)) (calls (snd r')).
Proof.
  intros Hi Hc. unfold reconcile_step, generate_index_for. cbn [with_quiet arg_quiet arg_bucket].
  destruct (dict_get d indexes) as [o|].
  - destruct (negb (String.eqb (strip dquote_char (ETag o)) (md5_hexdigest (index_body files d)))).
    + cbn [fst snd calls invalidations]. rewrite Hi. split; [reflexivity|]. split; [reflexivity|].
      rewrite !filter_loud_app, Hc. destruct (arg_quiet a), b; reflexivity.
    + cbn [fst snd]. auto.
  - cbn [fst snd calls invalidations]. rewrite Hi. split; [reflexivity|]. split; [reflexivity|].
    rewrite !filter_loud_app, Hc. destruct (arg_quiet a), b; reflexivity.
Qed.

Lemma reconcile_pass_quiet (a : arguments) (b : bool) (indexes : dict s3object)
  (ks : list string) :
  forall (files : dict (list s3object)) (st st' : run_state),
    invalidations st = invalidations st' ->
    filter (fun e => negb (is_print e)) (calls st)
    = filter (fun e => negb (is_print e)) (calls st') ->
    invalidations (snd (reconcile_pass a indexes ks (files, st)))
    = invalidations (snd (reconcile_pass (with_quiet b a) indexes ks (files, st')))
    /\ filter (fun e => negb (is_print e))
         (calls (snd (reconcile_pass a indexes ks (files, st))))
       = filter (fun e => negb (is_print e))
           (calls (snd (reconcile_pass (with_quiet b a) indexes ks (files, st')))).
Proof.
  unfold reconcile_pass.
  induction ks as [|d ks IH]; intros files st st' Hi Hc; cbn [fold_left snd]; [auto|].
  destruct (reconcile_step_quiet a b indexes files st st' d Hi Hc) as (Hf & Hi1 & Hc1).
  destruct (reconcile_step a indexes (files, st) d) as [fs st1].
  destruct (reconcile_step (with_quiet b a) indexes (files, st') d) as [fs' st1'].
  cbn [fst snd] in *. subst fs'. now apply IH.
Qed.

(** X16. The quiet flag changes nothing but status messages: with it set
    or cleared a run ends the same way, collects the same invalidation
    set and makes the same calls other than [print], in the same order. *)
Theorem quiet_changes_messages_only (list_objects_v2 : request -> response)
  (a : arguments) (b : bool) (fuel : nat) (uuid4 : string) :
  snd (main list_objects_v2 fuel (with_quiet b a) uuid4)
  = snd (main list_objects_v2 fuel a uuid4)
  /\ invalidations (fst (main list_objects_v2 fuel (with_quiet b a) uuid4))
     = invalidations (fst (main list_objects_v2 fuel a uuid4))
  /\ filter (fun e => negb (is_print e))
       (calls (fst (main list_objects_v2 fuel (with_quiet b a) uuid4)))
     = filter (fun e => negb (is_print e))
         (calls (fst (main list_objects_v2 fuel a uuid4))).
Proof.
  unfold main. change (operating_prefix (with_quiet b a)) with (operating_prefix a).
  change (arg_bucket (with_quiet b a)) with (arg_bucket a).
  destruct (split_bucket_contents list_objects_v2 fuel (arg_bucket a) (operating_prefix a))
    as [[indexes files]|k|]; [|auto..].
  destruct files as [|kv files]; [auto|].
  destruct (fill_missing_parent_directories fuel (kv :: files) (operating_prefix a))
    as [files'|]; [|auto].
  change (delete_pass (with_quiet b a) files' (keys indexes))
    with (delete_pass a files' (keys indexes)).
  set (st0 := delete_pass a files' (keys indexes) {| calls := []; invalidations := [] |}).
  destruct (reconcile_pass_quiet a b indexes (keys files') files' st0 st0 eq_refl eq_refl)
    as [Hi Hc].
  destruct (reconcile_pass a indexes (keys files') (files', st0)) as [fs st].
  destruct (reconcile_pass (with_quiet b a) indexes (keys files') (files', st0)) as [fs' st'].
  cbn [fst snd] in *. split; [reflexivity|].
  symmetry in Hi, Hc.
  unfold invalidate. cbn [with_quiet arg_cfdistribution arg_quiet]. rewrite Hi.
  destruct (invalidations st) as [|p ps] eqn:Hinv; [split; [congruence | assumption]|].
  destruct (arg_cfdistribution a) as [dist|]; [|split; [congruence | assumption]].
  destruct (is_empty dist); cbn [negb]; [split; [congruence | assumption]|].
  cbn [fst calls invalidations]. split; [reflexivity|].
  rewrite !filter_loud_app, Hc. destruct (arg_quiet a), b; reflexivity.
Qed.

(** ** What a listing links to *)






(** X19. Two directories never share a listing key or an invalidation
    path. *)
Theorem keys_and_paths_distinct (d d' : string) :
  d <> d' -> index_key d <> index_key d' /\ invalidation_path d <> invalidation_path d'.
Proof.
  intros Hne. split; intros E; apply Hne.
  - now apply index_key_inj.
  - now apply invalidation_path_inj.
Qed.

Lemma keys_and_paths_distinct_witness :
  index_key "a" <> index_key EmptyString
  /\ invalidation_path "a" <> invalidation_path EmptyString.
Proof.
  apply (keys_and_paths_distinct "a" EmptyString). discriminate.
Defined.

(** ** Sample runs *)

Lemma puts_create_or_update_witness :
  Forall
    (fun e =>
       match e with
       | put_object b k body digest type =>
           b = arg_bucket (sample_arguments None) /\ type = "text/html"
           /\ digest = md5_digest_b64 body
           /\ exists d,
                In d (keys (snd (split_records stale_bucket))) /\ k = index_key d
                /\ body = index_body (snd (split_records stale_bucket)) d
                /\ (dict_get d (fst (split_records stale_bucket)) = None
                    \/ exists o, dict_get d (fst (split_records stale_bucket)) = Some o
                                 /\ strip dquote_char (ETag o) <> md5_hexdigest body)
       | delete_object b k =>
           b = arg_bucket (sample_arguments None)
           /\ exists i, In i (keys (fst (split_records stale_bucket)))
                        /\ ~ In i (keys (snd (split_records stale_bucket)))
                        /\ k = index_key i
       | _ => True
       end)
    (calls (fst (main (S3.list_objects_v2 1000 stale_bucket) 10
                   (sample_arguments None) "run-1"))).
Proof.
  apply (puts_create_or_update (S3.list_objects_v2 1000 stale_bucket)
           (sample_arguments None) 10 "run-1"
           (fst (split_records stale_bucket)) (snd (split_records stale_bucket))
           (snd (split_records stale_bucket))).
  - vm_compute. reflexivity.
  - vm_compute. discriminate.
  - vm_compute. reflexivity.
Defined.


Lemma reconciled_run_is_quiet_witness :
  main (S3.list_objects_v2 1000 reconciled_bucket) 10 (sample_arguments None) "run-2"
  = ({| calls := []; invalidations := [] |}, Finished).
Proof.
  apply (reconciled_run_is_quiet (S3.list_objects_v2 1000 reconciled_bucket)
           (sample_arguments None) 10 "run-2"
           (fst (split_records reconciled_bucket)) (snd (split_records reconciled_bucket))
           (snd (split_records reconciled_bucket))).
  - vm_compute. reflexivity.
  - vm_compute. discriminate.
  - vm_compute. reflexivity.
  - intros d Hd. vm_compute in Hd. vm_compute. tauto.
  - intros d Hd. vm_compute in Hd. destruct Hd as [<-|[]].
    eexists. split; vm_compute; reflexivity.
Defined.

Lemma paged_bucket_ascending : S3.ascending paged_bucket.
Proof.
  unfold S3.ascending, paged_bucket. repeat constructor.
Qed.

Lemma enumeration_complete_without_prefix_witness :
  get_complete_bucket (S3.list_objects_v2 2 paged_bucket) (S (List.length paged_bucket))
    "bucket" EmptyString
  = Ok paged_bucket.
Proof.
  apply (enumeration_complete_without_prefix 2 paged_bucket "bucket").
  - lia.
  - exact paged_bucket_ascending.
Defined.

Lemma enumeration_exact_on_one_page_witness :
  get_complete_bucket (S3.list_objects_v2 3 paged_bucket) 1 "bucket" "a"
  = Ok (filter (fun o => String.prefix "a" (Key o)) paged_bucket).
Proof.
  apply (enumeration_exact_on_one_page 3 paged_bucket "bucket" "a" 0).
  - discriminate.
  - vm_compute. lia.
Defined.
